(** * RADAR-DPC downloader: a shallow embedding of [radar_downloader.py]

    The development follows the layout of the Python module: helpers
    ([ensure_relative_path], [safe_join], [chunked_download]), the
    [Downloader] worker, the [PureWsClient] feed listener and the [App]
    that wires them together.  Python values keep their shape: decoded JSON
    is an inductive type, dictionaries are finite maps, the dedup cache is a
    [gmap string Q], exceptions are results of an error monad, and what the
    program does to the outside world (log records, files, HTTP requests) is
    threaded through explicit state. *)

From Stdlib Require Import Ascii String QArith Qminmax.
From stdpp Require Import base option list strings gmap fin_maps pretty.

Set Warnings "-register-all".
Local Open Scope string_scope.
Local Open Scope Z_scope.
Local Open Scope list_scope.

(** ** Python values *)

(** A Python [float]: a finite value (kept as the rational it denotes) or
    one of the three special values.  [json.loads] produces the special
    values from [NaN], [Infinity], [-Infinity] and from literals too large
    for a double, such as [1e999]. *)
Inductive pyfloat : Type :=
  | FFinite (q : Q)
  | FNan
  | FInf (negative : bool).

(** What [json.loads] returns ([JsonLike] in the source). *)
Inductive json : Type :=
  | JNull
  | JBool (b : bool)
  | JInt (n : Z)
  | JFloat (f : pyfloat)
  | JStr (s : string)
  | JList (items : list json)
  | JDict (d : gmap string json).

(** A decoded JSON object, the [dict] handed around as an event. *)
Abbreviation pydict := (gmap string json).

(** Exceptions the modelled code can raise. *)
Inductive exn : Type :=
  | AttributeError
  | ValueError (msg : string)
  | OverflowError
  | RuntimeError
  | HTTPError
  | ConnectionError
  | OSError (msg : string)
  | QueueFull
  | QueueEmpty.

(** [bool(x)]: the truth value Python's [or] and [not] look at. *)
Definition truthy (v : json) : bool :=
  match v with
  | JNull => false
  | JBool b => b
  | JInt n => negb (n =? 0)%Z
  | JFloat (FFinite q) => negb (Qnum q =? 0)%Z
  | JFloat _ => true
  | JStr s => negb (String.eqb s "")
  | JList l => match l with [] => false | _ => true end
  | JDict d => negb (bool_decide (d = ∅))
  end.

(** [a or b]. *)
Definition py_or (a b : json) : json := if truthy a then a else b.

(** [d.get(k)], with its default [None]. *)
Definition dict_get (d : pydict) (k : string) : json := default JNull (d !! k).

(** [k in d]. *)
Definition dict_has (d : pydict) (k : string) : bool := bool_decide (is_Some (d !! k)).

(** ** [PureWsClient._extract_events] *)

(** The dict members of a list, in order: the [for item in obj] loop with
    its [isinstance(item, dict)] test. *)
Fixpoint dict_items (l : list json) : list pydict :=
  match l with
  | [] => []
  | JDict d :: rest => d :: dict_items rest
  | _ :: rest => dict_items rest
  end.

(** The generator, as the list of what it yields. *)
Definition _extract_events (obj : json) : list pydict :=
  match obj with
  | JDict o =>
      match o !! "data" with
      | Some (JDict inner) =>
          if dict_has inner "productType" || dict_has inner "time"
          then [inner]
          else [o]
      | _ => [o]
      end
  | JList items => dict_items items
  | _ => []
  end.

(** ** Python strings

    A [string] stands for a Python [str] through its UTF-8 encoding, one
    character per byte: splitting at slashes, the search for a NUL and the
    lengths the file system counts are then exact for every encodable text.
    The case mapping and the white-space class below are Python's on ASCII
    text, which is what product codes are; beyond ASCII [str.upper] and
    [str.strip] know more letters and more blanks, and a statement that
    needs them to agree with Python says [ascii_only]. *)

Fixpoint ascii_only (s : string) : bool :=
  match s with
  | EmptyString => true
  | String c rest => (nat_of_ascii c <? 128)%nat && ascii_only rest
  end.

(** The test every call into the operating system makes on a path before
    anything else: a NUL character cannot be passed on. *)
Fixpoint has_nul (s : string) : bool :=
  match s with
  | EmptyString => false
  | String c rest => bool_decide (c = "000"%char) || has_nul rest
  end.

Definition upper_char (c : ascii) : ascii :=
  let n := nat_of_ascii c in
  if (97 <=? n)%nat && (n <=? 122)%nat then ascii_of_nat (n - 32) else c.

(** [s.upper()]. *)
Fixpoint upper (s : string) : string :=
  match s with
  | EmptyString => EmptyString
  | String c rest => String (upper_char c) (upper rest)
  end.

(** The characters [str.strip()] removes: tab, line feed, vertical tab, form
    feed, carriage return, the four separators 0x1c-0x1f and the space. *)
Definition is_pyspace (c : ascii) : bool :=
  let n := nat_of_ascii c in
  ((9 <=? n)%nat && (n <=? 13)%nat) || ((28 <=? n)%nat && (n <=? 32)%nat).

Fixpoint lstrip_with (drop : ascii → bool) (s : string) : string :=
  match s with
  | EmptyString => EmptyString
  | String c rest => if drop c then lstrip_with drop rest else s
  end.

(** [s.strip()]. *)
Definition strip (s : string) : string :=
  String.rev (lstrip_with is_pyspace (String.rev (lstrip_with is_pyspace s))).

Definition is_slash (c : ascii) : bool := bool_decide (c = "/"%char).

(** [s.lstrip("/")]. *)
Definition lstrip_slash (s : string) : string := lstrip_with is_slash s.

(** [s.split("/")]: always at least one piece. *)
Fixpoint split_slash (s : string) : list string :=
  match s with
  | EmptyString => [""]
  | String c rest =>
      if is_slash c then "" :: split_slash rest
      else match split_slash rest with
           | piece :: pieces => String c piece :: pieces
           | [] => [String c ""]
           end
  end.

(** [s.endswith("/")]. *)
Fixpoint ends_with_slash (s : string) : bool :=
  match s with
  | EmptyString => false
  | String c EmptyString => is_slash c
  | String _ rest => ends_with_slash rest
  end.

Definition starts_with_slash (s : string) : bool :=
  match s with String c _ => is_slash c | EmptyString => false end.

(** ** [pathlib] on POSIX *)

(** A [PurePosixPath]: whether it is anchored at the root, and its
    components.  (POSIX's separate double-slash root is not modelled: the
    only strings the program parses have had their leading slashes
    stripped.) *)
Record Path : Type := mkPath { absolute : bool; parts : list string }.

(** A canonical absolute path, as [resolve] returns it: the components
    below the root directory. *)
Abbreviation abspath := (list string).

(** [Path(s)]: separators split the string; empty and ["."] components
    vanish. *)
Definition Path_of_string (s : string) : Path :=
  {| absolute := starts_with_slash s;
     parts := filter (λ seg, seg ≠ "" ∧ seg ≠ ".") (split_slash s) |}.

(** [p.as_posix()], which is [str(p)] on POSIX. *)
Definition as_posix (p : Path) : string :=
  match absolute p, parts p with
  | false, [] => "."
  | false, segs => String.concat "/" segs
  | true, segs => "/" +:+ String.concat "/" segs
  end.

(** [os.path.join] on two arguments; [Path] folds it over its unpacked
    arguments before parsing. *)
Definition posix_join2 (a b : string) : string :=
  if starts_with_slash b then b
  else if bool_decide (a = "") || ends_with_slash a then a +:+ b
  else a +:+ "/" +:+ b.

(** [Path] applied to the unpacked list of segments. *)
Definition Path_of_segments (segs : list string) : Path :=
  Path_of_string (foldl posix_join2 "" segs).

(** [a / b]. *)
Definition path_join (a b : Path) : Path :=
  if absolute b then b
  else {| absolute := absolute a; parts := parts a ++ parts b |}.

(** [str(p)] for a canonical absolute path. *)
Definition abspath_str (p : abspath) : string := "/" +:+ String.concat "/" p.

(** [p.name], [p.parent] and [p.suffix] for a canonical absolute path. *)
Definition path_name (p : abspath) : string := List.last p "".
Definition path_parent (p : abspath) : abspath := removelast p.

Fixpoint rfind_dot (s : string) : option nat :=
  match s with
  | EmptyString => None
  | String c rest =>
      match rfind_dot rest with
      | Some i => Some (S i)
      | None => if bool_decide (c = "."%char) then Some 0%nat else None
      end
  end.

Definition name_suffix (name : string) : string :=
  match rfind_dot name with
  | Some i =>
      if (0 <? i)%nat && (i <? String.length name - 1)%nat
      then String.substring i (String.length name - i) name
      else ""
  | None => ""
  end.

(** [p.with_suffix(suffix)] for a suffix that starts with a dot, as
    [p.suffix + ".part"] always does: fails on a path with no name. *)
Definition with_suffix (p : abspath) (suffix : string) : exn + abspath :=
  let name := path_name p in
  if bool_decide (name = "") then inl (ValueError "path has an empty name")
  else
    let old := name_suffix name in
    let stem := String.substring 0 (String.length name - String.length old) name in
    inr (path_parent p ++ [stem +:+ suffix]).

(** ** Results, exceptions and state *)

(** How a call ends: it returns a value or raises. *)
Inductive res (A : Type) : Type :=
  | Ok (a : A)
  | Raise (e : exn).
Arguments Ok {A} a.
Arguments Raise {A} e.

(** A computation over a mutable state [S]; what was written before an
    exception stays written. *)
Definition M (S A : Type) : Type := S → res A * S.

#[local] Instance M_ret {S} : MRet (M S) := λ A a s, (Ok a, s).
#[local] Instance M_bind {S} : MBind (M S) := λ A B f m s,
  match m s with
  | (Ok a, s') => f a s'
  | (Raise e, s') => (Raise e, s')
  end.

Definition raise {S A} (e : exn) : M S A := λ s, (Raise e, s).
Definition gets {S A} (f : S → A) : M S A := λ s, (Ok (f s), s).
Definition modify {S} (f : S → S) : M S unit := λ s, (Ok (), f s).
Definition lift_sum {S A} (r : exn + A) : M S A :=
  match r with inl e => raise e | inr a => mret a end.

(** ** Jobs and log records *)

(** The dict [{"productType": ..., "productDate": ...}] built on line 325. *)
Record Job : Type := mkJob { productType : string; productDate : Z }.

#[local] Instance Job_eq_dec : EqDecision Job.
Proof. solve_decision. Defined.

Inductive level : Type := DEBUG | INFO | WARNING | ERROR.

(** One record per [logging] call of the module. *)
Inductive log_record : Type :=
  | LogIgnoringEvent (ev : pydict)
  | LogIgnoringProduct (product_type : string)
  | LogEnqueued (product_type : string) (epoch_ms : Z)
  | LogQueueFull (job : Job)
  | LogSkipExisting (dest : abspath)
  | LogDownloading (dest : abspath)
  | LogDone (dest : abspath)
  | LogJobFailed (e : exn)
  | LogReconnecting (backoff : Q)
  | LogRunForeverException (e : exn)
  | LogWaitingForPending
  | LogBye.

Definition level_of (r : log_record) : level :=
  match r with
  | LogIgnoringEvent _ | LogIgnoringProduct _ | LogEnqueued _ _ => DEBUG
  | LogQueueFull _ => WARNING
  | LogJobFailed _ | LogRunForeverException _ => ERROR
  | _ => INFO
  end.

(** ** The file system and the network, as the worker sees them *)

Inductive node : Type :=
  | File (data : string)
  | Dir.

(** A mutation of the file system, in the order the program asks for it. *)
Inductive fs_op : Type :=
  | OpMkdir (p : abspath)
  | OpOpenWb (p : abspath)
  | OpWrite (p : abspath) (data : string)
  | OpReplace (src dst : abspath).

Inductive http_request : Type :=
  | ReqPost (endpoint : string) (product_type : string) (product_date : Z)
  | ReqGet (url : json).

(** The node table is indexed by canonical paths, which is what [resolve]
    hands to the rest of the program; symbolic links live in their own
    table, from the canonical path of the link to its target text.  A file
    has one name here; files with several names (hard links) and open
    descriptors appear with [Disk] further down.
    [dir_size] is the [st_size] this file system reports for a directory.
    [syscalls] and [requests] record what the program has done so far,
    oldest first. *)
Record World : Type := mkWorld {
  cwd : abspath;
  links : gmap abspath string;
  dir_size : Z;
  nodes : gmap abspath node;
  syscalls : list fs_op;
  requests : list http_request;
  wlog : list log_record;
}.

Definition set_nodes (f : gmap abspath node → gmap abspath node) (w : World) : World :=
  mkWorld (cwd w) (links w) (dir_size w) (f (nodes w))
          (syscalls w) (requests w) (wlog w).
Definition set_links (f : gmap abspath string → gmap abspath string) (w : World) : World :=
  mkWorld (cwd w) (f (links w)) (dir_size w) (nodes w)
          (syscalls w) (requests w) (wlog w).
Definition add_syscall (op : fs_op) (w : World) : World :=
  mkWorld (cwd w) (links w) (dir_size w) (nodes w)
          (syscalls w ++ [op]) (requests w) (wlog w).
Definition add_request (r : http_request) (w : World) : World :=
  mkWorld (cwd w) (links w) (dir_size w) (nodes w)
          (syscalls w) (requests w ++ [r]) (wlog w).
Definition add_wlog (r : log_record) (w : World) : World :=
  mkWorld (cwd w) (links w) (dir_size w) (nodes w)
          (syscalls w) (requests w) (wlog w ++ [r]).

(** The root directory always exists. *)
Definition node_at (ns : gmap abspath node) (p : abspath) : option node :=
  match p with [] => Some Dir | _ => ns !! p end.

(** [posixpath._joinrealpath], which [os.path.realpath] runs in its
    non-strict mode: the components are taken one by one; empty and ["."]
    ones are dropped, [".."] steps up, and [os.lstat] is asked about every
    other one.  A component that is no link is appended.  A link is resolved
    by a nested call on its target (from the root when the target is
    absolute) and the answer is remembered in [seen]; a link met again while
    it is being resolved is a loop.  [os.lstat] raises [ValueError] on a name
    with a NUL character; its [OSError]s (a name too long, a missing entry)
    are swallowed and the component counts as no link.  [depth] bounds the
    nesting of the calls: every nested call has one more link in [seen], so
    with more [depth] than there are links it never runs out. *)
Fixpoint _joinrealpath (lnk : gmap abspath string) (depth : nat)
    : abspath → list string → gmap abspath (option abspath) →
      exn + abspath * gmap abspath (option abspath) :=
  fix go (path : abspath) (rest : list string) (seen : gmap abspath (option abspath))
      {struct rest} : exn + abspath * gmap abspath (option abspath) :=
    match rest with
    | [] => inr (path, seen)
    | name :: rest' =>
        if bool_decide (name = "" ∨ name = ".") then go path rest' seen
        else if bool_decide (name = "..") then go (removelast path) rest' seen
        else if has_nul name then inl (ValueError "embedded null byte")
        else
          let newpath := path ++ [name] in
          match lnk !! newpath with
          | None => go newpath rest' seen
          | Some target =>
              match seen !! newpath with
              | Some (Some resolved) => go resolved rest' seen
              | Some None => inl RuntimeError
              | None =>
                  match depth with
                  | O => inl RuntimeError
                  | S depth' =>
                      match _joinrealpath lnk depth'
                              (if starts_with_slash target then [] else path)
                              (split_slash target) (<[newpath := None]> seen) with
                      | inl e => inl e
                      | inr (resolved, seen') =>
                          go resolved rest' (<[newpath := Some resolved]> seen')
                      end
                  end
              end
          end
    end.

(** [p.resolve()]: relative paths start from the working directory.  After
    a loop [realpath] hands back the path with the looping link still in
    it, and the [stat] that [resolve] then tries turns it into
    [RuntimeError].  (Python lets the path through where that [stat] does
    not meet the loop: the rest of the path steps out of it again with
    [".."], or the loop runs through a directory that is missing.  Here
    every loop raises; the statements below are about paths that
    resolve.) *)
Definition resolve (p : Path) : M World abspath := λ w,
  match _joinrealpath (links w) (S (size (links w)))
          (if absolute p then [] else cwd w) (parts p) ∅ with
  | inr (q, _) => (Ok q, w)
  | inl e => (Raise e, w)
  end.

(** The limits of Linux: a component of at most [NAME_MAX] bytes, a path of
    fewer than [PATH_MAX] bytes, at most [MAXSYMLINKS] links followed in one
    lookup.  A call that is handed a longer path fails with ENAMETOOLONG. *)
Definition NAME_MAX : nat := 255.
Definition PATH_MAX : nat := 4096.
Definition MAXSYMLINKS : nat := 40.

Definition name_too_long (p : abspath) : bool :=
  (PATH_MAX <=? String.length (abspath_str p))%nat
  || existsb (λ seg, (NAME_MAX <? String.length seg)%nat) p.

(** What a call that takes a path answers before it looks at the file
    system: Python refuses a NUL character with [ValueError], and the system
    refuses a path that is too long. *)
Definition refusal (p : abspath) : option exn :=
  if existsb has_nul p then Some (ValueError "embedded null byte")
  else if name_too_long p then Some (OSError "File name too long")
  else None.

(** Path lookup as the system does it for a call that follows links: the
    target of a link is spliced in front of what is left, at most [fuel]
    times, and every component that is passed through has to be a
    directory. *)
Fixpoint namei (lnk : gmap abspath string) (ns : gmap abspath node) (fuel : nat)
    : abspath → list string → exn + abspath :=
  fix go (acc : abspath) (rest : list string) {struct rest} : exn + abspath :=
    match rest with
    | [] => inr acc
    | seg :: rest' =>
        if bool_decide (seg = "" ∨ seg = ".") then go acc rest'
        else if bool_decide (seg = "..") then go (removelast acc) rest'
        else match lnk !! (acc ++ [seg]) with
             | Some target =>
                 match fuel with
                 | O => inl (OSError "Too many levels of symbolic links")
                 | S fuel' =>
                     namei lnk ns fuel'
                       (if starts_with_slash target then [] else acc)
                       (split_slash target ++ rest')
                 end
             | None =>
                 match rest' with
                 | [] => inr (acc ++ [seg])
                 | _ =>
                     match node_at ns (acc ++ [seg]) with
                     | Some Dir => go (acc ++ [seg]) rest'
                     | Some (File _) => inl (OSError "Not a directory")
                     | None => inl (OSError "No such file or directory")
                     end
                 end
             end
    end.

(** [p.exists()] on a canonical path: [os.stat] failing with ENOENT or
    ENOTDIR means no, and so does a [ValueError]; any other failure is
    raised. *)
Definition path_exists (p : abspath) : M World bool := λ w,
  match refusal p with
  | Some (ValueError _) => (Ok false, w)
  | Some e => (Raise e, w)
  | None => (Ok (bool_decide (is_Some (node_at (nodes w) p))), w)
  end.

(** [p.stat().st_size] on a canonical path. *)
Definition st_size (p : abspath) : M World Z := λ w,
  match refusal p with
  | Some e => (Raise e, w)
  | None =>
      match node_at (nodes w) p with
      | Some (File data) => (Ok (Z.of_nat (String.length data)), w)
      | Some Dir => (Ok (dir_size w), w)
      | None => (Raise (OSError "No such file or directory"), w)
      end
  end.

(** [p.mkdir(parents=True, exist_ok=True)] on a canonical path: every
    missing directory on the way down is created; a component that is a
    regular file, or one whose name is too long, is an error, met after the
    directories above it have been made. *)
Fixpoint mkdir_from (base : abspath) (todo : list string) : M World unit :=
  match todo with
  | [] => mret ()
  | seg :: todo' =>
      let here := base ++ [seg] in
      λ w, if (NAME_MAX <? String.length seg)%nat
           then (Raise (OSError "File name too long"), w)
           else match node_at (nodes w) here with
                | Some Dir => mkdir_from here todo' w
                | Some (File _) =>
                    (Raise (OSError match todo' with
                                    | [] => "File exists"
                                    | _ => "Not a directory"
                                    end), w)
                | None =>
                    mkdir_from here todo'
                      (add_syscall (OpMkdir here) (set_nodes (insert here Dir) w))
                end
  end.

Definition mkdir_parents (p : abspath) : M World unit :=
  if existsb has_nul p then raise (ValueError "embedded null byte")
  else if (PATH_MAX <=? String.length (abspath_str p))%nat
  then raise (OSError "File name too long")
  else mkdir_from [] p.

(** [open(p, "wb")] for a [p] in a canonical directory: the last component
    is looked up following links, and the file found there is created or
    truncated.  The result is the canonical path of the file the descriptor
    refers to, which is where the writes go. *)
Definition open_wb (p : abspath) : M World abspath := λ w,
  match refusal p with
  | Some e => (Raise e, w)
  | None =>
    match namei (links w) (nodes w) MAXSYMLINKS (path_parent p) [path_name p] with
    | inl e => (Raise e, w)
    | inr q =>
        match node_at (nodes w) (path_parent q), node_at (nodes w) q with
        | Some Dir, Some Dir => (Raise (OSError "Is a directory"), w)
        | Some Dir, _ =>
            (Ok q, add_syscall (OpOpenWb p) (set_nodes (insert q (File "")) w))
        | _, _ => (Raise (OSError "No such file or directory"), w)
        end
    end
  end.

(** [f.write(chunk)] on the file opened at [p]. *)
Definition write_chunk (p : abspath) (chunk : string) : M World unit :=
  modify (λ w, add_syscall (OpWrite p chunk)
                 (set_nodes (alter (λ n, match n with
                                         | File data => File (data +:+ chunk)
                                         | Dir => Dir
                                         end) p) w)).

(** [src.replace(dst)], that is [os.replace]: one atomic rename.  It moves
    what stands at [src], be it a file or a symbolic link, and whatever
    stood at [dst] is gone. *)
Definition replace (src dst : abspath) : M World unit := λ w,
  if existsb has_nul src || existsb has_nul dst
  then (Raise (ValueError "embedded null byte"), w)
  else if name_too_long src || name_too_long dst
  then (Raise (OSError "File name too long"), w)
  else
    match links w !! src with
    | Some target =>
        match node_at (nodes w) dst with
        | Some Dir => (Raise (OSError "Is a directory"), w)
        | _ =>
            (Ok (), add_syscall (OpReplace src dst)
                      (set_links (λ ls, <[dst := target]> (delete src ls))
                         (set_nodes (delete dst) w)))
        end
    | None =>
        match nodes w !! src, node_at (nodes w) dst with
        | None, _ => (Raise (OSError "No such file or directory"), w)
        | Some (File _), Some Dir => (Raise (OSError "Is a directory"), w)
        | Some n, _ =>
            (Ok (), add_syscall (OpReplace src dst)
                      (set_links (delete dst)
                         (set_nodes (λ ns, <[dst := n]> (delete src ns)) w)))
        end
    end.

(** What the lookup endpoint answers to a POST: the call itself fails, or a
    response arrives with a status and a body that may or may not decode as
    JSON. *)
Inductive post_response : Type :=
  | PostFailed (e : exn)
  | PostResponse (status_ok : bool) (body : option json).

(** What a streamed GET gives: the call itself fails, or a response arrives
    with a status and a body delivered chunk by chunk, possibly cut short by
    an exception after the chunks listed. *)
Inductive get_response : Type :=
  | GetFailed (e : exn)
  | GetResponse (status_ok : bool) (chunks : list string) (broken : option exn).

(** The remote services, as functions of the request. *)
Record Remote : Type := mkRemote {
  api_post : string → string → Z → post_response;
  http_get : json → get_response;
}.

(** ** Helpers (lines 85-108) *)

Definition DOWNLOAD_SUFFIX : string := ".part".

(** [ensure_relative_path(key)]. *)
Definition ensure_relative_path (key : string) : Path :=
  let p := as_posix (Path_of_string (lstrip_slash key)) in
  let segs := filter (λ seg, seg ∉ ["" ; "." ; ".."]) (split_slash p) in
  Path_of_segments segs.

(** [safe_join(root, rel)]. *)
Definition safe_join (root rel : Path) : M World abspath :=
  candidate ← resolve (path_join root rel);
  root' ← resolve root;
  if negb (String.prefix (abspath_str root') (abspath_str candidate))
  then raise (ValueError "Unsafe path join detected")
  else mret candidate.

(** The [for chunk in r.iter_content(...)] loop with its [if chunk] test,
    on the open file [f]. *)
Fixpoint write_chunks (f : abspath) (chunks : list string) : M World unit :=
  match chunks with
  | [] => mret ()
  | chunk :: rest =>
      (if negb (String.eqb chunk "") then write_chunk f chunk else mret ());;
      write_chunks f rest
  end.

(** [chunked_download(url, dest)]. *)
Definition chunked_download (remote : Remote) (url : json) (dest : abspath) : M World unit :=
  mkdir_parents (path_parent dest);;
  tmp ← lift_sum (with_suffix dest (name_suffix (path_name dest) +:+ DOWNLOAD_SUFFIX));
  modify (add_request (ReqGet url));;
  match http_get remote url with
  | GetFailed e => raise e
  | GetResponse status_ok chunks broken =>
      (if status_ok then mret () else raise HTTPError);;
      f ← open_wb tmp;
      write_chunks f chunks;;
      match broken with
      | Some e => raise e
      | None => replace tmp dest
      end
  end.

(** ** Several workers at once (lines 101-108 and 285)

    [App.__init__] starts several workers, and each of them runs
    [chunked_download] without a lock; the temporary name is a function of
    the destination alone.  What two transfers do to each other depends on
    the file behind a name, which the node table above does not keep apart
    from the name; so here a directory entry leads to an inode, and a
    descriptor keeps its inode, and its own offset, whatever happens to the
    name.  A transfer is followed from [open] on, system call by system
    call.  The file object buffers what [f.write] is given and hands it to
    the system in writes of its own choosing, the last of them when the
    [with] block closes the file, on the normal way out and on the way out
    of an exception alike; [t_writes] lists those writes, and together they
    are the bytes received.  (Bytes that fit the buffer, 8192 by default,
    make one write.) *)
Record Disk : Type := mkDisk {
  entries : gmap abspath nat;
  inodes : gmap nat string;
  next_inode : nat;
}.

Definition empty_disk : Disk := mkDisk ∅ ∅ 0.

(** What a name leads to. *)
Definition file_at (d : Disk) (p : abspath) : option string :=
  i ← entries d !! p; inodes d !! i.

(** [open] with O_CREAT and O_TRUNC: the file behind the name is emptied,
    or a new one is made; the descriptor refers to the inode. *)
Definition sys_open_trunc (p : abspath) (d : Disk) : nat * Disk :=
  match entries d !! p with
  | Some i => (i, mkDisk (entries d) (<[i := ""]> (inodes d)) (next_inode d))
  | None =>
      let i := next_inode d in
      (i, mkDisk (<[p := i]> (entries d)) (<[i := ""]> (inodes d)) (S i))
  end.

(** The bytes of a file after [data] has been written at offset [pos]: what
    lay before the offset stays, a gap up to the offset reads as NUL bytes,
    and what lay behind the written bytes stays. *)
Definition write_at (pos : nat) (data old : string) : string :=
  String.substring 0 pos old
  +:+ string_of_list_ascii (replicate (pos - String.length old) "000"%char)
  +:+ data
  +:+ String.substring (pos + String.length data)
        (String.length old - (pos + String.length data)) old.

Definition sys_write (fd pos : nat) (data : string) (d : Disk) : Disk :=
  mkDisk (entries d) (alter (write_at pos data) fd (inodes d)) (next_inode d).

(** [rename]: the entry [dst] now leads to the inode of [src], and [src] is
    gone. *)
Definition sys_rename (src dst : abspath) (d : Disk) : res () * Disk :=
  match entries d !! src with
  | None => (Raise (OSError "No such file or directory"), d)
  | Some i => (Ok (), mkDisk (<[dst := i]> (delete src (entries d))) (inodes d) (next_inode d))
  end.

(** One transfer: where it goes, the writes that carry the bytes received,
    and the exception that cuts the stream short, if any. *)
Record transfer : Type := mkTransfer {
  t_dest : abspath;
  t_writes : list string;
  t_broken : option exn;
}.

Definition t_received (t : transfer) : string := foldr String.append "" (t_writes t).

(** Where a worker stands in lines 104-108: about to open the temporary
    file; streaming, with its descriptor, the offset of the descriptor and
    the writes still to come; about to rename; or back from the call. *)
Inductive dl_pc : Type :=
  | DlOpen
  | DlStreaming (fd pos : nat) (todo : list string)
  | DlReplace
  | DlReturned (r : res ()).

(** The temporary sibling of a destination (line 101). *)
Definition part_file (dest : abspath) : abspath :=
  path_parent dest ++ [path_name dest +:+ DOWNLOAD_SUFFIX].

(** One system call of one worker; leaving the [with] block, by the
    exception or towards the rename, is a step of its own. *)
Definition dl_step (t : transfer) (pc : dl_pc) (d : Disk) : dl_pc * Disk :=
  let tmp := part_file (t_dest t) in
  match pc with
  | DlOpen => let '(fd, d') := sys_open_trunc tmp d in (DlStreaming fd 0 (t_writes t), d')
  | DlStreaming fd pos (data :: todo) =>
      (DlStreaming fd (pos + String.length data) todo, sys_write fd pos data d)
  | DlStreaming fd pos [] =>
      (match t_broken t with
       | Some e => DlReturned (Raise e)
       | None => DlReplace
       end, d)
  | DlReplace => let '(r, d') := sys_rename tmp (t_dest t) d in (DlReturned r, d')
  | DlReturned r => (DlReturned r, d)
  end.

(** The workers take their steps in the order the schedule gives. *)
Definition race_step (ts : list transfer) (st : list dl_pc * Disk) (i : nat)
    : list dl_pc * Disk :=
  match ts !! i, st.1 !! i with
  | Some t, Some pc => let '(pc', d') := dl_step t pc st.2 in (<[i := pc']> st.1, d')
  | _, _ => st
  end.

Definition run_schedule (ts : list transfer) (schedule : list nat)
    (st : list dl_pc * Disk) : list dl_pc * Disk :=
  foldl (race_step ts) st schedule.

(** ** [Downloader.process_job] (lines 134-157) *)

Definition process_job (remote : Remote) (output_dir : Path) (api_endpoint : string)
    (job : Job) : M World unit :=
  let product_type := productType job in
  let product_date := productDate job in
  modify (add_request (ReqPost api_endpoint product_type product_date));;
  match api_post remote api_endpoint product_type product_date with
  | PostFailed e => raise e
  | PostResponse status_ok body =>
      (if status_ok then mret () else raise HTTPError);;
      info ← match body with
             | Some v => mret v
             | None => raise (ValueError "Expecting value")
             end;
      d ← match info with
          | JDict d => mret d
          | _ => raise AttributeError
          end;
      let key := dict_get d "key" in
      let url := dict_get d "url" in
      (if negb (truthy key) || negb (truthy url)
       then raise (ValueError "Malformed response from API")
       else mret ());;
      rel ← match key with
            | JStr k => mret (ensure_relative_path k)
            | _ => raise AttributeError
            end;
      dest ← safe_join output_dir rel;
      present ← path_exists dest;
      size ← (if present then st_size dest else mret 0);
      if present && (0 <? size)
      then modify (add_wlog (LogSkipExisting dest))
      else
        modify (add_wlog (LogDownloading dest));;
        chunked_download remote url dest;;
        modify (add_wlog (LogDone dest))
  end.

(** ** The work queue ([queue.Queue(maxsize=1000)]) *)

Definition MAXSIZE : nat := 1000.

(** [items] is what the queue holds, oldest first; [unfinished_tasks] is the
    counter [join] waits on.  [accepted] is a history variable: every job
    [put_nowait] has ever taken, oldest first. *)
Record Queue : Type := mkQueue {
  items : list Job;
  unfinished_tasks : nat;
  accepted : list Job;
}.

Definition empty_queue : Queue := mkQueue [] 0 [].

(** [q.put_nowait(job)]. *)
Definition put_nowait (job : Job) (q : Queue) : exn + Queue :=
  if (MAXSIZE <=? length (items q))%nat then inl QueueFull
  else inr (mkQueue (items q ++ [job]) (S (unfinished_tasks q)) (accepted q ++ [job])).

(** [q.get(timeout=0.5)]: the oldest job, or [queue.Empty] once the
    timeout has passed on an empty queue. *)
Definition queue_get (q : Queue) : exn + (Job * Queue) :=
  match items q with
  | [] => inl QueueEmpty
  | job :: rest => inr (job, mkQueue rest (unfinished_tasks q) (accepted q))
  end.

(** [q.task_done()]. *)
Definition task_done (q : Queue) : exn + Queue :=
  match unfinished_tasks q with
  | O => inl (ValueError "task_done() called too many times")
  | S n => inr (mkQueue (items q) n (accepted q))
  end.

(** ** [App] (lines 264-349) *)

Record App : Type := mkApp {
  products : gset string;
  dedup : gmap string Q;
  jobs : Queue;
  stop_event : bool;
  log : list log_record;
}.

Definition set_dedup (f : gmap string Q → gmap string Q) (a : App) : App :=
  mkApp (products a) (f (dedup a)) (jobs a) (stop_event a) (log a).
Definition set_jobs (q : Queue) (a : App) : App :=
  mkApp (products a) (dedup a) q (stop_event a) (log a).
Definition set_stop (a : App) : App :=
  mkApp (products a) (dedup a) (jobs a) true (log a).
Definition add_log (r : log_record) (a : App) : App :=
  mkApp (products a) (dedup a) (jobs a) (stop_event a) (log a ++ [r]).

(** Line 275: the allowlist, trimmed and upper-cased, blanks dropped. *)
Definition normalize_products (ps : list string) : gset string :=
  list_to_set (map (λ p, upper (strip p))
                   (filter (λ p, strip p ≠ "") ps)).

(** [App.__init__], without the threads it starts. *)
Definition App_init (ps : list string) : App :=
  mkApp (normalize_products ps) ∅ empty_queue false [].

(** [isinstance(v, (int, float))]; a [bool] is an [int] in Python. *)
Definition is_int_or_float (v : json) : bool :=
  match v with
  | JBool _ | JInt _ | JFloat _ => true
  | _ => false
  end.

(** [int(v)] for a value that passed [is_int_or_float]: floats are
    truncated towards zero, and the special values raise. *)
Definition py_int (v : json) : exn + Z :=
  match v with
  | JBool b => inr (Z.b2z b)
  | JInt n => inr n
  | JFloat (FFinite q) => inr (Z.quot (Qnum q) (Zpos (Qden q)))
  | JFloat FNan => inl (ValueError "cannot convert float NaN to integer")
  | JFloat (FInf _) => inl OverflowError
  | _ => inl (ValueError "invalid literal for int()")
  end.

(** The identity key of line 318. *)
Definition job_key (job : Job) : string :=
  productType job +:+ ":" +:+ pretty (productDate job).

(** What lines 304-317 make of an event: it is ignored, with the debug
    record that says why, or it becomes a job. *)
Inductive verdict : Type :=
  | Ignore (why : log_record)
  | Accept (job : Job).

Definition classify (allow : gset string) (ev : pydict) : exn + verdict :=
  match py_or (py_or (dict_get ev "productType") (dict_get ev "type")) (JStr "") with
  | JStr raw =>
      let product_type := strip (upper raw) in
      let epoch_ms :=
        match dict_get ev "time" with
        | JNull => py_or (dict_get ev "productDate") (dict_get ev "timestamp")
        | t => t
        end in
      if bool_decide (product_type = "") || negb (is_int_or_float epoch_ms)
      then inr (Ignore (LogIgnoringEvent ev))
      else if bool_decide (product_type ∉ allow)
      then inr (Ignore (LogIgnoringProduct product_type))
      else match py_int epoch_ms with
           | inl e => inl e
           | inr n => inr (Accept (mkJob product_type n))
           end
  | _ => inl AttributeError
  end.

(** [datetime.utcfromtimestamp(epoch_ms / 1000.0)] succeeds for the years
    1 to 9999 and raises outside them. *)
Definition utcfromtimestamp_ok (epoch_ms : Z) : bool :=
  (-62135596800000 <=? epoch_ms) && (epoch_ms <? 253402300800000).

(** What it raises outside them, on CPython 3.11 and 64-bit Linux, by the
    size of the date: [ValueError] while the C library can still break the
    seconds down (the message names the year and is cut short here),
    [OSError] (EOVERFLOW) when [gmtime] gives up on the year, and
    [OverflowError] once the seconds do not fit [time_t] or the integer does
    not fit a float.  The bounds are in milliseconds, as the division by
    [1000.0] rounds them. *)
Definition utcfromtimestamp_error (epoch_ms : Z) : exn :=
  if (-67768040609740804096 <=? epoch_ms) && (epoch_ms <=? 67768036191676796928)
  then ValueError "year is out of range"
  else if (-9223372036854776332288 <=? epoch_ms) && (epoch_ms <=? 9223372036854776332288)
  then OSError "Value too large for defined data type"
  else OverflowError.

(** [App.on_ws_event(ev)]; [now] is what [time.time()] returns on
    line 323. *)
Definition on_ws_event (now : Q) (ev : pydict) : M App unit :=
  allow ← gets products;
  v ← lift_sum (classify allow ev);
  match v with
  | Ignore why => modify (add_log why)
  | Accept job =>
      let key := job_key job in
      seen ← gets dedup;
      if bool_decide (is_Some (seen !! key)) then mret ()
      else
        modify (set_dedup (insert key now));;
        q ← gets jobs;
        match put_nowait job q with
        | inr q' =>
            modify (set_jobs q');;
            (if utcfromtimestamp_ok (productDate job) then mret ()
             else raise (utcfromtimestamp_error (productDate job)));;
            modify (add_log (LogEnqueued (productType job) (productDate job)))
        | inl _ => modify (add_log (LogQueueFull job))
        end
  end.

(** One pass of [App._gc_loop]: the keys older than three hours are
    collected, then deleted one by one. *)
Definition RETENTION : Q := 3 * 3600.

#[local] Instance Qlt_dec (x y : Q) : Decision (x < y)%Q.
Proof.
  destruct (Qlt_le_dec x y) as [Hlt|Hle]; [left; exact Hlt | right].
  apply Qle_not_lt, Hle.
Defined.

Definition expired_keys (cutoff : Q) (d : gmap string Q) : list string :=
  (filter (λ kv, Qlt (snd kv) cutoff) (map_to_list d)).*1.

Definition gc_sweep (now : Q) : M App unit :=
  modify (set_dedup (λ d,
    let cutoff := (now - RETENTION)%Q in
    foldl (λ d' k, delete k d') d (expired_keys cutoff d))).

(** ** [PureWsClient] (lines 204-260) *)

Definition BACKOFF_MIN : Q := 1.
Definition BACKOFF_MAX : Q := 30.

(** [_on_message], from the JSON values decoded out of one frame: every
    extracted event goes to the handler; an exception ends the frame. *)
Fixpoint deliver (now : Q) (evs : list pydict) : M App unit :=
  match evs with
  | [] => mret ()
  | ev :: rest => on_ws_event now ev;; deliver now rest
  end.

Definition _on_message (now : Q) (objs : list json) : M App unit :=
  deliver now (concat (map _extract_events objs)).

(** What happens while one connection is open: frames arrive, and a
    termination signal may be handled ([handle_sig] sets the stop event and
    returns, the connection stays as it is). *)
Inductive feed_item : Type :=
  | Frame (now : Q) (objs : list json)
  | Signal.

(** The library calls the callbacks and keeps exceptions to itself. *)
Definition feed (it : feed_item) (a : App) : App :=
  match it with
  | Frame now objs => snd (_on_message now objs a)
  | Signal => set_stop a
  end.

(** One connection, from open to close: what arrives on it, and whether
    the library's own [run_forever] ends by raising. *)
Record session : Type := mkSession {
  arrivals : list feed_item;
  raised : option exn;
}.

(** [PureWsClient.run_forever]: one iteration per session; the result is
    the list of [time.sleep] durations, in order. *)
Fixpoint reconnect_loop (backoff : Q) (sessions : list session) (a : App) : list Q * App :=
  match sessions with
  | [] => ([], a)
  | s :: rest =>
      if stop_event a then ([], a)
      else
        let a1 := foldl (λ st it, feed it st) a (arrivals s) in
        let a2 := match raised s with
                  | Some e => add_log (LogRunForeverException e) a1
                  | None => a1
                  end in
        if stop_event a2 then ([], a2)
        else
          let a3 := add_log (LogReconnecting backoff) a2 in
          let '(sleeps, a4) := reconnect_loop (Qmin (backoff * 2) BACKOFF_MAX) rest a3 in
          (backoff :: sleeps, a4)
  end.

Definition run_forever (sessions : list session) (a : App) : list Q * App :=
  reconnect_loop BACKOFF_MIN sessions a.

(** ** The threads: [Downloader.run], [App._gc_loop], [App.start] *)

(** Where a worker stands in [Downloader.run]. *)
Inductive worker_pc : Type :=
  | AtLoopTest
  | InGet
  | Processing (job : Job)
  | Returned.

(** Where the main thread stands in [App.start]. *)
Inductive main_pc : Type :=
  | Listening
  | Joining
  | Exited.

Record System : Type := mkSystem {
  app : App;
  world : World;
  workers : list worker_pc;
  main : main_pc;
}.

Definition with_app (f : App → App) (s : System) : System :=
  mkSystem (f (app s)) (world s) (workers s) (main s).

Definition queue_after_task_done (q : Queue) : Queue :=
  match task_done q with inr q' => q' | inl _ => q end.

(** [process_job] inside the [try] of [Downloader.run]: a failure is logged
    and goes no further. *)
Definition run_job (remote : Remote) (output_dir : Path) (api_endpoint : string)
    (job : Job) (w : World) : World :=
  match process_job remote output_dir api_endpoint job w with
  | (Ok _, w') => w'
  | (Raise e, w') => add_wlog (LogJobFailed e) w'
  end.

Section Threads.
Variable remote : Remote.
Variable output_dir : Path.
Variable api_endpoint : string.

(** One atomic step of one thread.  The threads meet at the queue and at
    the stop event, and a job is processed in one step here; what transfers
    running side by side do to each other on disk is followed in
    [race_step]. *)
Inductive step : System → System → Prop :=
  | step_signal s :
      main s ≠ Exited →
      step s (with_app set_stop s)
  | step_frame s now objs :
      main s = Listening →
      step s (with_app (feed (Frame now objs)) s)
  | step_listener_returns s :
      main s = Listening →
      stop_event (app s) = true →
      step s (mkSystem (add_log LogWaitingForPending (set_stop (app s)))
                       (world s) (workers s) Joining)
  | step_join_returns s :
      main s = Joining →
      unfinished_tasks (jobs (app s)) = 0%nat →
      step s (mkSystem (add_log LogBye (app s)) (world s) (workers s) Exited)
  | step_sweep s now :
      main s ≠ Exited →
      stop_event (app s) = false →
      step s (with_app (λ a, snd (gc_sweep now a)) s)
  | step_worker_stops s i :
      workers s !! i = Some AtLoopTest →
      stop_event (app s) = true →
      step s (mkSystem (app s) (world s) (<[i := Returned]> (workers s)) (main s))
  | step_worker_polls s i :
      workers s !! i = Some AtLoopTest →
      stop_event (app s) = false →
      step s (mkSystem (app s) (world s) (<[i := InGet]> (workers s)) (main s))
  | step_worker_gets s i job q :
      workers s !! i = Some InGet →
      queue_get (jobs (app s)) = inr (job, q) →
      step s (mkSystem (set_jobs q (app s)) (world s)
                       (<[i := Processing job]> (workers s)) (main s))
  | step_worker_times_out s i :
      workers s !! i = Some InGet →
      queue_get (jobs (app s)) = inl QueueEmpty →
      step s (mkSystem (app s) (world s) (<[i := AtLoopTest]> (workers s)) (main s))
  | step_worker_finishes s i job :
      workers s !! i = Some (Processing job) →
      step s (mkSystem (set_jobs (queue_after_task_done (jobs (app s))) (app s))
                       (run_job remote output_dir api_endpoint job (world s))
                       (<[i := AtLoopTest]> (workers s)) (main s)).

(** What the system can reach. *)
Definition reaches : System → System → Prop := rtc step.
End Threads.

(** * The vocabulary of the statements

    Predicates the properties are stated with, and the concrete events,
    worlds and services they are tried on. *)

(** The wrapper shape line 185 tests for: a ["data"] member that is itself
    an object and carries a ["productType"] or a ["time"] member. *)
Definition wraps_event (o inner : pydict) : Prop :=
  o !! "data" = Some (JDict inner) ∧
  (is_Some (inner !! "productType") ∨ is_Some (inner !! "time")).

Definition is_dict (v : json) : Prop := ∃ d, v = JDict d.
Definition is_list (v : json) : Prop := ∃ l, v = JList l.

(** The object members of an array, as a plain list operation. *)
Definition object_members (l : list json) : list pydict :=
  omap (λ v, match v with JDict d => Some d | _ => None end) l.

Definition sample_event : pydict :=
  <["productType" := JStr "VMI"]> (<["time" := JInt 1700000000000]> ∅).

Definition sample_wrapper : pydict :=
  <["data" := JDict sample_event]> (<["seq" := JInt 7]> ∅).

Definition quiet (s : session) : Prop := Signal ∉ arrivals s.

(** The wait before reconnection number [K], counted from 1. *)
Definition nth_wait (K : nat) : Q := inject_Z (Z.min (2 ^ Z.of_nat (K - 1)) 30).

Definition dropped_connection : session := mkSession [] (Some ConnectionError).

(** A connection on which an event arrives before it is closed. *)
Definition good_connection : session :=
  mkSession [Frame 0 [JDict sample_event]] None.

(** A failed connection: it ended without having delivered a frame. *)
Definition failed (s : session) : Prop := ∀ now objs, Frame now objs ∉ arrivals s.

Definition allowlist : list string := ["VMI"; "SRI"; "TEMP"].

Definition vmi_job : Job := mkJob "VMI" 1700000000000.

(** An application whose queue holds [n] jobs already. *)
Definition app_with_backlog (n : nat) : App :=
  set_jobs (mkQueue (replicate n (mkJob "SRI" 0)) n (replicate n (mkJob "SRI" 0)))
           (App_init allowlist).

(** What can happen to the [App] between two presentations of an event:
    another event is handled, the sweep runs, a worker takes a job or
    reports one done. *)
Inductive action : Type :=
  | Present (now : Q) (ev : pydict)
  | Sweep (now : Q)
  | WorkerGet
  | WorkerDone.

Definition act (x : action) (a : App) : App :=
  match x with
  | Present now ev => snd (on_ws_event now ev a)
  | Sweep now => snd (gc_sweep now a)
  | WorkerGet =>
      match queue_get (jobs a) with
      | inr (_, q) => set_jobs q a
      | inl _ => a
      end
  | WorkerDone => set_jobs (queue_after_task_done (jobs a)) a
  end.

Definition run_actions (xs : list action) (a : App) : App :=
  foldl (λ st x, act x st) a xs.

(** Every job with identity [key] the queue has ever taken. *)
Definition placed (key : string) (a : App) : list Job :=
  filter (λ j, job_key j = key) (accepted (jobs a)).

(** A sweep at [now] keeps an entry recorded at [since]. *)
Definition within_retention (since : Q) (x : action) : Prop :=
  match x with
  | Sweep now => (now - RETENTION <= since)%Q
  | _ => True
  end.

Definition overflowing_event : pydict :=
  <["productType" := JStr "VMI"]> (<["time" := JFloat (FInf false)]> ∅).

Definition nan_event : pydict :=
  <["productType" := JStr "VMI"]> (<["time" := JFloat FNan]> ∅).

Definition same_namespace (w1 w2 : World) : Prop :=
  cwd w1 = cwd w2 ∧ links w1 = links w2.

Definition out_root : Path := mkPath true ["srv"; "out"].

(** A lookup service that answers every request with the same key and
    URL, and a store that answers every GET with the same stream. *)
Definition fixed_remote (key : string) (stream : get_response) : Remote :=
  mkRemote
    (λ _ _ _, PostResponse true
                (Some (JDict (<["key" := JStr key]>
                                (<["url" := JStr "https://store/object"]> ∅)))))
    (λ _, stream).

(** A world without symbolic links, with the given node table. *)
Definition plain_world (ns : gmap abspath node) : World :=
  mkWorld ["home"; "radar"] ∅ 4096 ns [] [] [].

Definition grib_dest : abspath := ["srv"; "out"; "vmi"; "a.grib"].

Definition world_with_grib : World :=
  plain_world (<[grib_dest := File "GRIB"]>
                 (<[["srv"; "out"; "vmi"] := Dir]>
                    (<[["srv"; "out"] := Dir]> (<[["srv"] := Dir]> ∅)))).

(** What [mkdir] leaves as it found it: everything but the node table and
    the list of calls. *)
Definition same_but_files (w w1 : World) : Prop :=
  cwd w1 = cwd w ∧ links w1 = links w ∧
  dir_size w1 = dir_size w ∧ requests w1 = requests w ∧ wlog w1 = wlog w.

(** The world once [chunks] have been appended to the file at [tmp], which
    held [data] before. *)
Definition after_writes (tmp : abspath) (data : string) (chunks : list string)
    (w : World) : World :=
  mkWorld (cwd w) (links w) (dir_size w)
          (<[tmp := File (data +:+ foldr String.append "" chunks)]> (nodes w))
          (syscalls w ++ map (OpWrite tmp) (filter (λ c, c ≠ "") chunks))
          (requests w) (wlog w).

Definition broken_stream : get_response :=
  GetResponse true ["GR"; ""; "IB"] (Some ConnectionError).

Definition sri_dest : abspath := ["srv"; "out"; "sri"; "b.grib"].

Definition world_with_root : World :=
  plain_world (<[["srv"; "out"] := Dir]> (<[["srv"] := Dir]> ∅)).

(** The destination is there from an earlier run, and its temporary name
    is a second name of the same file. *)
Definition disk_with_second_name : Disk :=
  mkDisk (<[part_file sri_dest := 0%nat]> (<[sri_dest := 0%nat]> ∅))
         (<[0%nat := "OLD"]> ∅) 1.

(** The destination is there from an earlier run, and its temporary name
    is a symbolic link to it. *)
Definition world_with_part_link : World :=
  mkWorld ["home"; "radar"] (<[part_file sri_dest := "b.grib"]> ∅) 4096
          (<[sri_dest := File "OLD"]>
             (<[["srv"; "out"; "sri"] := Dir]>
                (<[["srv"; "out"] := Dir]> (<[["srv"] := Dir]> ∅))))
          [] [] [].

(** A canonical path strictly inside a directory: the directory's
    components followed by at least one more. *)
Definition strictly_inside (root p : abspath) : Prop :=
  ∃ seg rest, p = root ++ seg :: rest.

Definition api_url : string := "https://api/downloadProduct".

(** The output root has not been created yet. *)
Definition fresh_world : World := plain_world (<[["srv"] := Dir]> ∅).

(** A link inside the output root that leads to a sibling directory whose
    name starts with the root's name. *)
Definition world_with_sibling_link : World :=
  mkWorld ["home"; "radar"] (<[["srv"; "out"; "l"] := "/srv/out2"]> ∅) 4096
          (<[["srv"; "out2"] := Dir]> (<[["srv"; "out"] := Dir]> (<[["srv"] := Dir]> ∅)))
          [] [] [].

Fixpoint slash_free (s : string) : bool :=
  match s with
  | EmptyString => true
  | String c rest => negb (is_slash c) && slash_free rest
  end.

(** A component that names an entry of a directory: not empty, not ["."],
    not [".."], and without a separator. *)
Definition clean (seg : string) : Prop :=
  seg ≠ "" ∧ seg ≠ "." ∧ seg ≠ ".." ∧ slash_free seg = true.

(** No symbolic link stands at [base] extended by a non-empty prefix of
    [segs]. *)
Definition no_link_below (lnk : gmap abspath string) (base : abspath)
    (segs : list string) : Prop :=
  ∀ pre, pre ≠ [] → pre `prefix_of` segs → lnk !! (base ++ pre) = None.

(** The key ["a\x00b"], as JSON can deliver it. *)
Definition nul_key : string := String "a" (String "000" (String "b" EmptyString)).

(** A link inside the output root that leads out of it. *)
Definition world_with_link : World :=
  mkWorld ["home"; "radar"] (<[["srv"; "out"; "latest"] := "/etc"]> ∅) 4096
          (<[["srv"; "out"] := Dir]> (<[["srv"] := Dir]> ∅)) [] [] [].

(** A job is stranded: the stop event is set, the main thread waits in
    [jobs.join()], the job is still queued and counted as unfinished, and
    every worker has returned or is about to test the loop condition. *)
Definition stranded (job : Job) (s : System) : Prop :=
  main s = Joining ∧
  stop_event (app s) = true ∧
  items (jobs (app s)) = [job] ∧
  unfinished_tasks (jobs (app s)) = 1%nat ∧
  Forall (λ pc, pc = Returned ∨ pc = AtLoopTest) (workers s).

Definition sri_event : pydict :=
  <["type" := JStr "sri"]> (<["timestamp" := JInt 1700000300000]> ∅).

Definition sri_job : Job := mkJob "SRI" 1700000300000.

(** The application right after start-up, three workers idle. *)
Definition initial_system : System :=
  mkSystem (App_init allowlist) world_with_root
           [AtLoopTest; AtLoopTest; AtLoopTest] Listening.

Definition store : Remote := fixed_remote "vmi/a.grib" (GetResponse true ["GRIB"] None).

(** * Further vocabulary

    Predicates for the properties of the rest of the module. *)

(** An entry the sweep at [now] keeps: it is not older than the retention
    window. *)
Definition retained (now : Q) (entry : string * Q) : Prop :=
  ¬ (snd entry < now - RETENTION)%Q.

(** The workers that hold a job taken from the queue and not yet reported
    done. *)
Definition is_processing (pc : worker_pc) : bool :=
  match pc with Processing _ => true | _ => false end.

Definition in_flight (ws : list worker_pc) : nat :=
  length (filter (λ pc, is_processing pc = true) ws).

(** The counter [join] waits on counts the queued jobs and the jobs in the
    hands of a worker. *)
Definition balanced (s : System) : Prop :=
  unfinished_tasks (jobs (app s))
  = (length (items (jobs (app s))) + in_flight (workers s))%nat.

(** The components of a storage key that survive cleaning: the pieces
    between slashes, without the empty ones, ["."] and [".."]. *)
Definition key_segments (key : string) : list string :=
  filter (λ seg, seg ∉ ["" ; "." ; ".."]) (split_slash key).

(** A lookup answer the worker can act on: a good status, a JSON object, a
    non-empty string under ["key"] and something true under ["url"]. *)
Definition usable_answer (r : post_response) : Prop :=
  ∃ (d : pydict) (k : string),
    r = PostResponse true (Some (JDict d)) ∧
    dict_get d "key" = JStr k ∧ k ≠ "" ∧
    truthy (dict_get d "url") = true.

Definition complete_store : Remote :=
  fixed_remote "sri/b.grib" (GetResponse true ["GR"; "IB"] None).

Definition store_answer : pydict :=
  <["key" := JStr "sri/b.grib"]> (<["url" := JStr "https://store/object"]> ∅).

(** A string without a colon. *)
Fixpoint colon_free (s : string) : bool :=
  match s with
  | EmptyString => true
  | String c rest => negb (bool_decide (c = ":"%char)) && colon_free rest
  end.

(** The jobs that [get] hands to workers over a run, in the order they are
    handed out. *)
Fixpoint handed_out (xs : list action) (a : App) : list Job :=
  match xs with
  | [] => []
  | x :: rest =>
      match x, queue_get (jobs a) with
      | WorkerGet, inr (job, _) => job :: handed_out rest (act x a)
      | _, _ => handed_out rest (act x a)
      end
  end.

(** ** Transfers side by side *)

(** The two names a transfer works on. *)
Definition own_names (t : transfer) : list abspath := [part_file (t_dest t); t_dest t].

(** Transfer [i] has its temporary name and its destination to itself. *)
Definition alone_on_its_names (ts : list transfer) (i : nat) : Prop :=
  ∀ j ti tj, j ≠ i → ts !! i = Some ti → ts !! j = Some tj →
    ∀ p, p ∈ own_names ti → p ∉ own_names tj.

(** No file has two names, and the inode numbers in use lie below the next
    one to be given out. *)
Definition tidy (d : Disk) : Prop :=
  (∀ p q x, entries d !! p = Some x → entries d !! q = Some x → p = q) ∧
  (∀ p x, entries d !! p = Some x → (x < next_inode d)%nat).

(** What the two names of a transfer lead to, by where the worker stands. *)
Definition transfer_view (d0 : Disk) (t : transfer) (pc : dl_pc) (d : Disk) : Prop :=
  let tmp := part_file (t_dest t) in
  match pc with
  | DlOpen => file_at d (t_dest t) = file_at d0 (t_dest t)
  | DlStreaming fd pos todo =>
      file_at d (t_dest t) = file_at d0 (t_dest t) ∧
      ∃ written, file_at d tmp = Some written ∧
                 written +:+ foldr String.append "" todo = t_received t
  | DlReplace =>
      t_broken t = None ∧
      file_at d (t_dest t) = file_at d0 (t_dest t) ∧
      file_at d tmp = Some (t_received t)
  | DlReturned (Ok _) =>
      t_broken t = None ∧
      file_at d (t_dest t) = Some (t_received t) ∧ file_at d tmp = None
  | DlReturned (Raise e) =>
      t_broken t = Some e ∧
      file_at d (t_dest t) = file_at d0 (t_dest t) ∧
      file_at d tmp = Some (t_received t)
  end.

(** The inode a worker holds a descriptor to, if it holds one. *)
Definition fd_of (pc : dl_pc) : option nat :=
  match pc with DlStreaming fd _ _ => Some fd | _ => None end.

(** What holds of transfer [i] at every point of a run, as the induction
    needs it: the descriptor is the inode under the temporary name, its
    offset is the length of the file. *)
Definition my_state (d0 : Disk) (t : transfer) (pc : dl_pc) (d : Disk) : Prop :=
  let tmp := part_file (t_dest t) in
  match pc with
  | DlOpen => file_at d (t_dest t) = file_at d0 (t_dest t)
  | DlStreaming fd pos todo =>
      entries d !! tmp = Some fd ∧
      (∃ written, inodes d !! fd = Some written ∧ pos = String.length written ∧
                  written +:+ foldr String.append "" todo = t_received t) ∧
      file_at d (t_dest t) = file_at d0 (t_dest t)
  | DlReplace =>
      t_broken t = None ∧
      file_at d tmp = Some (t_received t) ∧
      file_at d (t_dest t) = file_at d0 (t_dest t)
  | DlReturned (Ok _) =>
      t_broken t = None ∧
      file_at d (t_dest t) = Some (t_received t) ∧ entries d !! tmp = None
  | DlReturned (Raise e) =>
      t_broken t = Some e ∧
      file_at d tmp = Some (t_received t) ∧
      file_at d (t_dest t) = file_at d0 (t_dest t)
  end.

(** What every step of every worker preserves when transfer [i], which is
    [t], has its names to itself. *)
Definition undisturbed (ts : list transfer) (i : nat) (t : transfer) (d0 : Disk)
    (st : list dl_pc * Disk) : Prop :=
  length st.1 = length ts ∧
  tidy st.2 ∧
  (∀ j x, (st.1 !! j ≫= fd_of) = Some x → (x < next_inode st.2)%nat) ∧
  (∀ j x, j ≠ i → (st.1 !! j ≫= fd_of) = Some x →
          entries st.2 !! part_file (t_dest t) ≠ Some x ∧
          entries st.2 !! t_dest t ≠ Some x) ∧
  (∃ pc, st.1 !! i = Some pc ∧ my_state d0 t pc st.2).

(** ** [PureWsClient._on_message], the text of a frame (lines 211-218) *)

(** The line boundaries [str.splitlines] knows in ASCII text: line feed,
    carriage return, vertical tab, form feed and the separators 0x1c-0x1e;
    a carriage return followed by a line feed is one boundary. *)
Definition is_linebreak (c : ascii) : bool :=
  let n := nat_of_ascii c in
  ((10 <=? n)%nat && (n <=? 13)%nat) || ((28 <=? n)%nat && (n <=? 30)%nat).

Definition is_cr (c : ascii) : bool := bool_decide (c = "013"%char).
Definition is_lf (c : ascii) : bool := bool_decide (c = "010"%char).

(** [s.splitlines()]. *)
Fixpoint splitlines (s : string) : list string :=
  match s with
  | EmptyString => []
  | String c rest =>
      if is_linebreak c then
        match rest with
        | String c2 rest2 =>
            if is_cr c && is_lf c2 then "" :: splitlines rest2
            else "" :: splitlines rest
        | EmptyString => [""]
        end
      else match splitlines rest with
           | piece :: pieces => String c piece :: pieces
           | [] => [String c ""]
           end
  end.

(** The test for a line feed in the message. *)
Fixpoint has_linefeed (s : string) : bool :=
  match s with
  | EmptyString => false
  | String c rest => is_lf c || has_linefeed rest
  end.

Definition starts_with_bracket (s : string) : bool :=
  match s with String c _ => bool_decide (c = "["%char) | EmptyString => false end.

(** The chunks [_on_message] hands to [json.loads], in order, for a text
    frame [message]. *)
Definition message_chunks (message : string) : list string :=
  let msg := strip message in
  if bool_decide (msg = "") then []
  else if has_linefeed msg
          && negb (starts_with_bracket (lstrip_with is_pyspace msg))
  then map strip (filter (λ ln, strip ln ≠ "") (splitlines msg))
  else [msg].

(** * Properties *)

(** ** Event extraction *)

Lemma dict_has_true d k : dict_has d k = true ↔ is_Some (d !! k).
Proof. unfold dict_has. by rewrite bool_decide_eq_true. Qed.

Lemma dict_items_omap (l : list json) : dict_items l = object_members l.
Proof.
  unfold object_members.
  induction l as [|v l IH]; [done|]. destruct v; simpl; by rewrite ?IH.
Qed.

(** C9: what the extraction step yields, shape by shape. A wrapper yields
    exactly its nested object; any other object yields exactly itself; an
    array yields exactly its object members, in order; every other JSON
    value yields nothing. *)
Theorem extract_events_shapes (obj : json) :
  (∀ o inner, obj = JDict o → wraps_event o inner →
     _extract_events obj = [inner]) ∧
  (∀ o, obj = JDict o → (∀ inner, ¬ wraps_event o inner) →
     _extract_events obj = [o]) ∧
  (∀ l, obj = JList l → _extract_events obj = object_members l) ∧
  (¬ is_dict obj → ¬ is_list obj → _extract_events obj = []).
Proof.
  repeat split.
  - intros o inner -> [Hdata Hfield]. simpl. rewrite Hdata.
    destruct Hfield as [H|H]; apply dict_has_true in H; rewrite H; simpl;
      [done | by rewrite orb_true_r].
  - intros o -> Hno. simpl.
    destruct (o !! "data") as [[| | | | | |inner]|] eqn:Hdata; try done.
    destruct (dict_has inner "productType" || dict_has inner "time") eqn:Hf; [|done].
    exfalso. apply (Hno inner). split; [done|].
    apply orb_true_iff in Hf as [H|H]; apply dict_has_true in H; auto.
  - intros l ->. simpl. apply dict_items_omap.
  - intros Hd Hl. destruct obj; try done.
    + exfalso. apply Hl. by eexists.
    + exfalso. apply Hd. by eexists.
Qed.

Lemma extract_events_shapes_witness :
  _extract_events (JDict sample_wrapper) = [sample_event] ∧
  _extract_events (JDict sample_event) = [sample_event] ∧
  _extract_events (JList [JInt 1; JDict sample_event; JStr "x"]) = [sample_event] ∧
  _extract_events (JStr "ping") = [].
Proof.
  split; [|split; [|split]].
  - destruct (extract_events_shapes (JDict sample_wrapper)) as (Hwrap & _).
    apply (Hwrap sample_wrapper sample_event); [reflexivity|].
    split; [reflexivity | left; by eexists].
  - destruct (extract_events_shapes (JDict sample_event)) as (_ & Hbare & _).
    apply (Hbare sample_event); [reflexivity|].
    intros inner [Hdata _]. vm_compute in Hdata. discriminate.
  - destruct (extract_events_shapes (JList [JInt 1; JDict sample_event; JStr "x"]))
      as (_ & _ & Harray & _).
    apply (Harray [JInt 1; JDict sample_event; JStr "x"]). reflexivity.
  - destruct (extract_events_shapes (JStr "ping")) as (_ & _ & _ & Hother).
    apply Hother; intros [? ?]; discriminate.
Defined.

(** ** Reconnection backoff *)

Lemma Qmin_inject_Z (a b : Z) : Qmin (inject_Z a) (inject_Z b) = inject_Z (Z.min a b).
Proof.
  unfold Qmin, GenericMinMax.gmin, Qcompare, Z.min, inject_Z. simpl.
  rewrite !Z.mul_1_r. by destruct (a ?= b).
Qed.

Lemma next_backoff (z : Z) :
  Qmin (inject_Z z * 2) BACKOFF_MAX = inject_Z (Z.min (z * 2) 30).
Proof. rewrite <- Qmin_inject_Z. reflexivity. Qed.

(** The handler and the sweep never touch the stop event. *)
Lemma on_ws_event_stop now ev a :
  stop_event (snd (on_ws_event now ev a)) = stop_event a.
Proof.
  unfold on_ws_event, mbind, M_bind, gets, lift_sum, modify, raise, mret, M_ret.
  simpl. destruct (classify (products a) ev) as [e|[why|job]]; simpl; try done.
  case_bool_decide; simpl; [done|].
  destruct (put_nowait job (jobs a)); simpl; [done|].
  by destruct (utcfromtimestamp_ok (productDate job)).
Qed.

Lemma deliver_stop now evs a :
  stop_event (snd (deliver now evs a)) = stop_event a.
Proof.
  revert a. induction evs as [|ev evs IH]; intros a; [done|].
  simpl. unfold mbind, M_bind.
  pose proof (on_ws_event_stop now ev a) as H.
  destruct (on_ws_event now ev a) as [[[]|e] a']; simpl in *; [|done].
  by rewrite IH.
Qed.

Lemma feed_quiet_stop (its : list feed_item) a :
  Signal ∉ its →
  stop_event (foldl (λ st it, feed it st) a its) = stop_event a.
Proof.
  revert a. induction its as [|it its IH]; intros a Hq; [done|].
  simpl. rewrite IH by set_solver.
  destruct it as [now objs|]; [apply deliver_stop | set_solver].
Qed.

Lemma reconnect_loop_waits (sessions : list session) :
  ∀ (n : nat) (a : App),
    stop_event a = false →
    Forall quiet sessions →
    fst (reconnect_loop (nth_wait (S n)) sessions a)
    = map (λ i, nth_wait (S n + i)) (seq 0 (length sessions)).
Proof.
  induction sessions as [|s rest IH]; intros n a Hstop Hq; [done|].
  apply Forall_cons in Hq as [Hs Hrest].
  simpl reconnect_loop. rewrite Hstop.
  set (a1 := foldl _ a (arrivals s)).
  assert (stop_event a1 = false) as H1.
  { unfold a1. by rewrite feed_quiet_stop. }
  set (a2 := match raised s with Some e => _ | None => a1 end).
  assert (stop_event a2 = false) as H2.
  { unfold a2. by destruct (raised s). }
  rewrite H2.
  assert (Qmin (nth_wait (S n) * 2) BACKOFF_MAX = nth_wait (S (S n))) as ->.
  { unfold nth_wait. rewrite next_backoff. f_equal.
    replace (Z.of_nat (S (S n) - 1)) with (Z.succ (Z.of_nat (S n - 1))) by lia.
    rewrite Z.pow_succ_r by lia. lia. }
  specialize (IH (S n) (add_log (LogReconnecting (nth_wait (S n))) a2) H2 Hrest).
  destruct (reconnect_loop _ rest _) as [sleeps a4]. simpl in *.
  rewrite IH. f_equal; [f_equal; lia|].
  rewrite <- seq_shift, map_map. apply map_ext. intros i. f_equal. lia.
Qed.

(** C6, amended: while no stop is requested, the wait after the K-th
    connection that has ended since the listener was started, whether it
    failed or had delivered events, is min(2^(K-1), 30) seconds, which lies
    between the floor of 1 second and the cap of 30 seconds. *)
Theorem backoff_after_failures (sessions : list session) (a : App) (K : nat) :
  stop_event a = false →
  Forall quiet sessions →
  (1 <= K <= length sessions)%nat →
  fst (run_forever sessions a) !! (K - 1)%nat
    = Some (inject_Z (Z.min (1 * 2 ^ (Z.of_nat K - 1)) 30)) ∧
  (BACKOFF_MIN <= inject_Z (Z.min (1 * 2 ^ (Z.of_nat K - 1)) 30) <= BACKOFF_MAX)%Q.
Proof.
  intros Hstop Hq [HK1 HK2]. split.
  - unfold run_forever.
    change BACKOFF_MIN with (nth_wait 1).
    rewrite (reconnect_loop_waits sessions 0 a Hstop Hq).
    rewrite list_lookup_fmap, lookup_seq_lt by lia. simpl.
    unfold nth_wait. do 3 f_equal. rewrite Z.mul_1_l. f_equal. lia.
  - assert (0 < 2 ^ (Z.of_nat K - 1)) by (apply Z.pow_pos_nonneg; lia).
    unfold BACKOFF_MIN, BACKOFF_MAX.
    change 1%Q with (inject_Z 1). change 30%Q with (inject_Z 30).
    rewrite <- !Zle_Qle. lia.
Qed.

Lemma backoff_after_failures_witness :
  fst (run_forever (replicate 7 dropped_connection) (App_init ["VMI"])) !! 5%nat
    = Some (inject_Z (Z.min (1 * 2 ^ (Z.of_nat 6 - 1)) 30)) ∧
  (BACKOFF_MIN <= inject_Z (Z.min (1 * 2 ^ (Z.of_nat 6 - 1)) 30) <= BACKOFF_MAX)%Q.
Proof.
  apply (backoff_after_failures (replicate 7 dropped_connection) (App_init ["VMI"]) 6).
  - reflexivity.
  - repeat constructor; unfold quiet; simpl; apply not_elem_of_nil.
  - simpl. lia.
Defined.

(** C6 as stated fails: the backoff is never reset. A connection delivers
    an event and ends, and the next one fails; that is one failure in a
    row, and the wait after it is 2 seconds, not min(2^0, 30) = 1. *)
Lemma backoff_is_never_reset :
  ¬ failed good_connection ∧
  failed dropped_connection ∧
  fst (run_forever [good_connection; dropped_connection] (App_init allowlist))
    = [1%Q; 2%Q] ∧
  inject_Z (Z.min (1 * 2 ^ (Z.of_nat 1 - 1)) 30) = 1%Q.
Proof.
  split; [|split; [|split; vm_compute; reflexivity]].
  - intros H. apply (H 0%Q [JDict sample_event]). by left.
  - intros now objs H. by apply elem_of_nil in H.
Qed.

(** ** The event handler *)

(** [on_ws_event], path by path. *)
Lemma on_ws_event_unfold (now : Q) (ev : pydict) (a : App) :
  on_ws_event now ev a =
  match classify (products a) ev with
  | inl e => (Raise e, a)
  | inr (Ignore why) => (Ok (), add_log why a)
  | inr (Accept job) =>
      if bool_decide (is_Some (dedup a !! job_key job)) then (Ok (), a)
      else
        let a1 := set_dedup (insert (job_key job) now) a in
        match put_nowait job (jobs a) with
        | inr q' =>
            if utcfromtimestamp_ok (productDate job)
            then (Ok (), add_log (LogEnqueued (productType job) (productDate job))
                           (set_jobs q' a1))
            else (Raise (utcfromtimestamp_error (productDate job)), set_jobs q' a1)
        | inl _ => (Ok (), add_log (LogQueueFull job) a1)
        end
  end.
Proof.
  unfold on_ws_event, mbind, M_bind, gets, lift_sum, modify, raise, mret, M_ret.
  simpl. destruct (classify (products a) ev) as [e|[why|job]]; simpl; try done.
  case_bool_decide; simpl; [done|].
  destruct (put_nowait job (jobs a)); simpl; [done|].
  by destruct (utcfromtimestamp_ok (productDate job)).
Qed.

(** A duplicate: the key is in the cache, the call returns at once. *)
Lemma on_ws_event_duplicate (now : Q) (ev : pydict) (a : App) (job : Job) :
  classify (products a) ev = inr (Accept job) →
  is_Some (dedup a !! job_key job) →
  on_ws_event now ev a = (Ok (), a).
Proof.
  intros Hc Hin. rewrite on_ws_event_unfold, Hc.
  by rewrite bool_decide_eq_true_2.
Qed.

Lemma put_nowait_full (job : Job) (q : Queue) :
  (MAXSIZE <= length (items q))%nat → put_nowait job q = inl QueueFull.
Proof.
  intros H. unfold put_nowait.
  destruct (MAXSIZE <=? length (items q))%nat eqn:E; [done|].
  apply Nat.leb_gt in E. lia.
Qed.

Lemma put_nowait_room (job : Job) (q : Queue) :
  (length (items q) < MAXSIZE)%nat →
  put_nowait job q
  = inr (mkQueue (items q ++ [job]) (S (unfinished_tasks q)) (accepted q ++ [job])).
Proof.
  intros H. unfold put_nowait.
  destruct (MAXSIZE <=? length (items q))%nat eqn:E; [|done].
  apply Nat.leb_le in E. lia.
Qed.

(** C7: on a full queue an accepted, not yet seen event returns at once;
    the job is not queued, a warning is logged, the identity key stays in
    the dedup cache, and any later event with the same key is dropped as a
    duplicate, whatever has happened to the queue in between. *)
Theorem full_queue_sheds_job (now : Q) (ev : pydict) (a : App) (job : Job) :
  classify (products a) ev = inr (Accept job) →
  dedup a !! job_key job = None →
  (MAXSIZE <= length (items (jobs a)))%nat →
  ∃ a' : App,
    on_ws_event now ev a = (Ok (), a') ∧
    jobs a' = jobs a ∧
    log a' = log a ++ [LogQueueFull job] ∧
    level_of (LogQueueFull job) = WARNING ∧
    dedup a' = <[job_key job := now]> (dedup a) ∧
    ∀ (later : App) (now' : Q) (ev' : pydict) (job' : Job),
      dedup later !! job_key job = dedup a' !! job_key job →
      classify (products later) ev' = inr (Accept job') →
      job_key job' = job_key job →
      on_ws_event now' ev' later = (Ok (), later).
Proof.
  intros Hc Hnew Hfull.
  exists (add_log (LogQueueFull job) (set_dedup (insert (job_key job) now) a)).
  split; [|repeat split].
  - rewrite on_ws_event_unfold, Hc, Hnew.
    rewrite bool_decide_eq_false_2 by (intros [? ?]; done).
    by rewrite put_nowait_full.
  - intros later now' ev' job' Hkept Hc' Hkey.
    apply (on_ws_event_duplicate now' ev' later job' Hc').
    rewrite Hkey, Hkept. simpl. rewrite lookup_insert_eq. by eexists.
Qed.

Lemma full_queue_sheds_job_witness :
  ∃ a' : App,
    on_ws_event 5 sample_event (app_with_backlog 1000) = (Ok (), a') ∧
    jobs a' = jobs (app_with_backlog 1000) ∧
    log a' = log (app_with_backlog 1000) ++ [LogQueueFull vmi_job] ∧
    level_of (LogQueueFull vmi_job) = WARNING ∧
    dedup a' = <[job_key vmi_job := 5%Q]> (dedup (app_with_backlog 1000)) ∧
    ∀ (later : App) (now' : Q) (ev' : pydict) (job' : Job),
      dedup later !! job_key vmi_job = dedup a' !! job_key vmi_job →
      classify (products later) ev' = inr (Accept job') →
      job_key job' = job_key vmi_job →
      on_ws_event now' ev' later = (Ok (), later).
Proof.
  apply (full_queue_sheds_job 5 sample_event (app_with_backlog 1000) vmi_job).
  - vm_compute. reflexivity.
  - vm_compute. reflexivity.
  - apply Nat.leb_le. vm_compute. reflexivity.
Defined.

(** ** Deduplication over a run of the application *)

Lemma lookup_foldl_delete (ks : list string) (d : gmap string Q) (k : string) :
  foldl (λ d' k', delete k' d') d ks !! k = if decide (k ∈ ks) then None else d !! k.
Proof.
  revert d. induction ks as [|k0 ks IH]; intros d; simpl.
  - destruct (decide (k ∈ [])) as [H|_]; [by apply elem_of_nil in H | done].
  - rewrite IH.
    destruct (decide (k ∈ ks)) as [Hin|Hout],
             (decide (k ∈ k0 :: ks)) as [Hin'|Hout']; try done.
    + exfalso. apply Hout'. by right.
    + apply elem_of_cons in Hin' as [->|Hin']; [apply lookup_delete_eq | done].
    + apply lookup_delete_ne. intros ->. apply Hout'. by left.
Qed.

Lemma elem_of_expired_keys (k : string) (cutoff : Q) (d : gmap string Q) :
  k ∈ expired_keys cutoff d ↔ ∃ ts, d !! k = Some ts ∧ (ts < cutoff)%Q.
Proof.
  unfold expired_keys. rewrite list_elem_of_fmap. split.
  - intros [[k' ts] [-> Hin]]. apply list_elem_of_filter in Hin as [Hlt Hin].
    apply elem_of_map_to_list in Hin. by exists ts.
  - intros [ts [Hk Hlt]]. exists (k, ts). split; [done|].
    apply list_elem_of_filter. split; [done|]. by apply elem_of_map_to_list.
Qed.

(** What one sweep does to one key. *)
Lemma gc_sweep_lookup (now : Q) (a : App) (k : string) :
  dedup (snd (gc_sweep now a)) !! k =
  match dedup a !! k with
  | Some ts => if decide (ts < now - RETENTION)%Q then None else Some ts
  | None => None
  end.
Proof.
  unfold gc_sweep, modify. simpl. rewrite lookup_foldl_delete.
  destruct (dedup a !! k) as [ts|] eqn:Hk.
  - destruct (decide (ts < now - RETENTION)%Q) as [Hlt|Hge].
    + rewrite decide_True; [done|]. apply elem_of_expired_keys. by exists ts.
    + rewrite decide_False; [done|]. rewrite elem_of_expired_keys.
      intros [ts' [Hk' Hlt]]. congruence.
  - rewrite decide_False; [done|]. rewrite elem_of_expired_keys.
    intros [ts' [Hk' _]]. congruence.
Qed.

(** While [key] sits in the cache, nothing that happens changes its entry,
    the allowlist, or the jobs placed under it. *)
Lemma act_frame (key : string) (since : Q) (x : action) (a : App) :
  dedup a !! key = Some since →
  within_retention since x →
  dedup (act x a) !! key = Some since ∧
  products (act x a) = products a ∧
  placed key (act x a) = placed key a.
Proof.
  intros Hk Hret. destruct x as [now ev|now| |]; cbn [act].
  - rewrite on_ws_event_unfold.
    destruct (classify (products a) ev) as [e|[why|job]]; simpl; [done..|].
    case_bool_decide as Hseen; simpl; [done|].
    assert (job_key job ≠ key) as Hne.
    { intros Heq. apply Hseen. rewrite Heq. by eexists. }
    destruct (put_nowait job (jobs a)) as [e|q'] eqn:Hput; simpl.
    + by rewrite lookup_insert_ne.
    + assert (placed key (set_jobs q' a) = placed key a) as Hplaced.
      { unfold put_nowait in Hput.
        destruct (MAXSIZE <=? length (items (jobs a)))%nat; [done|].
        injection Hput as <-. unfold placed. simpl.
        rewrite filter_app, filter_cons_False, filter_nil by done.
        apply app_nil_r. }
      destruct (utcfromtimestamp_ok (productDate job)); simpl;
        by rewrite lookup_insert_ne.
  - rewrite gc_sweep_lookup, Hk. simpl in Hret.
    rewrite decide_False by (by apply Qle_not_lt). done.
  - destruct (queue_get (jobs a)) as [e|[j q]] eqn:Hget; [done|].
    unfold queue_get in Hget. destruct (items (jobs a)); [done|].
    by injection Hget as <- <-.
  - unfold queue_after_task_done, task_done.
    by destruct (unfinished_tasks (jobs a)).
Qed.

Lemma run_actions_frame (key : string) (since : Q) (xs : list action) (a : App) :
  dedup a !! key = Some since →
  Forall (within_retention since) xs →
  dedup (run_actions xs a) !! key = Some since ∧
  products (run_actions xs a) = products a ∧
  placed key (run_actions xs a) = placed key a.
Proof.
  revert a. induction xs as [|x xs IH]; intros a Hk Hret; [done|].
  apply Forall_cons in Hret as [Hx Hxs].
  destruct (act_frame key since x a Hk Hx) as (Hk' & Hp' & Hpl').
  destruct (IH (act x a) Hk' Hxs) as (Hk'' & Hp'' & Hpl'').
  unfold run_actions in *. simpl. by rewrite Hk'', Hp'', Hpl'', Hp', Hpl'.
Qed.

(** The first presentation of a key that is not in the cache. *)
Lemma first_presentation (now : Q) (ev : pydict) (a : App) (job : Job) :
  classify (products a) ev = inr (Accept job) →
  dedup a !! job_key job = None →
  let a1 := snd (on_ws_event now ev a) in
  dedup a1 !! job_key job = Some now ∧
  products a1 = products a ∧
  placed (job_key job) a1
  = placed (job_key job) a
    ++ (if decide (length (items (jobs a)) < MAXSIZE)%nat then [job] else []).
Proof.
  intros Hc Hnew. simpl. rewrite on_ws_event_unfold, Hc, Hnew.
  rewrite bool_decide_eq_false_2 by (intros [? ?]; done). simpl.
  destruct (decide (length (items (jobs a)) < MAXSIZE)%nat) as [Hroom|Hfull].
  - rewrite put_nowait_room by done.
    assert (∀ a', placed (job_key job)
                    (set_jobs (mkQueue (items (jobs a) ++ [job])
                                 (S (unfinished_tasks (jobs a)))
                                 (accepted (jobs a) ++ [job])) a')
                  = placed (job_key job) a ++ [job]) as Hplaced.
    { intros a'. unfold placed. simpl.
      by rewrite filter_app, filter_cons_True, filter_nil. }
    destruct (utcfromtimestamp_ok (productDate job)); simpl;
      rewrite lookup_insert_eq; repeat split; try done; apply Hplaced.
  - rewrite put_nowait_full by lia. simpl.
    rewrite lookup_insert_eq. repeat split; try done.
    unfold placed. simpl. by rewrite app_nil_r.
Qed.

Lemma run_actions_app (xs ys : list action) (a : App) :
  run_actions (xs ++ ys) a = run_actions ys (run_actions xs a).
Proof. apply foldl_app. Qed.

(** C1, amended: an identity key that is not in the cache is presented,
    anything happens while the entry is retained, and the key is presented
    again. The second presentation returns without error and changes
    nothing, and over the whole run the queue has taken the job exactly
    once if it had room at the first presentation, and not at all if it was
    full. *)
Theorem duplicate_within_retention (a : App) (now1 now2 : Q) (ev1 ev2 : pydict)
    (job job2 : Job) (mid : list action) :
  classify (products a) ev1 = inr (Accept job) →
  classify (products a) ev2 = inr (Accept job2) →
  job_key job2 = job_key job →
  dedup a !! job_key job = None →
  Forall (within_retention now1) mid →
  let before := run_actions (Present now1 ev1 :: mid) a in
  on_ws_event now2 ev2 before = (Ok (), before) ∧
  placed (job_key job)
    (run_actions (Present now1 ev1 :: mid ++ [Present now2 ev2]) a)
  = placed (job_key job) a
    ++ (if decide (length (items (jobs a)) < MAXSIZE)%nat then [job] else []).
Proof.
  intros Hc1 Hc2 Hkey Hnew Hret before.
  destruct (first_presentation now1 ev1 a job Hc1 Hnew) as (Hk1 & Hp1 & Hpl1).
  destruct (run_actions_frame (job_key job) now1 mid _ Hk1 Hret)
    as (Hk2 & Hp2 & Hpl2).
  assert (on_ws_event now2 ev2 before = (Ok (), before)) as Hdup.
  { apply (on_ws_event_duplicate now2 ev2 before job2).
    - unfold before, run_actions. simpl. unfold run_actions in Hp2.
      by rewrite Hp2, Hp1.
    - rewrite Hkey. unfold before, run_actions. simpl.
      unfold run_actions in Hk2. rewrite Hk2. by eexists. }
  split; [exact Hdup|].
  change (Present now1 ev1 :: mid ++ [Present now2 ev2])
    with ((Present now1 ev1 :: mid) ++ [Present now2 ev2]).
  rewrite run_actions_app. fold before.
  unfold run_actions at 1. simpl. rewrite Hdup. simpl.
  unfold before, run_actions. simpl. unfold run_actions in Hpl2.
  by rewrite Hpl2, Hpl1.
Qed.

Lemma duplicate_within_retention_witness :
  let a := App_init allowlist in
  let mid := [WorkerGet; Sweep 300; Present 7 sample_event; WorkerDone] in
  let before := run_actions (Present 0 sample_event :: mid) a in
  on_ws_event 10 sample_event before = (Ok (), before) ∧
  placed (job_key vmi_job)
    (run_actions (Present 0 sample_event :: mid ++ [Present 10 sample_event]) a)
  = placed (job_key vmi_job) a
    ++ (if decide (length (items (jobs a)) < MAXSIZE)%nat then [vmi_job] else []).
Proof.
  intros a mid.
  apply (duplicate_within_retention a 0 10 sample_event sample_event vmi_job vmi_job mid).
  - vm_compute. reflexivity.
  - vm_compute. reflexivity.
  - reflexivity.
  - vm_compute. reflexivity.
  - repeat constructor. vm_compute. intros H. discriminate.
Defined.

(** C1 as stated fails on a full queue: the key is new, it is presented
    twice ten seconds apart, and no job at all is placed. *)
Lemma dedup_exactly_one_fails_when_full :
  let a := app_with_backlog 1000 in
  classify (products a) sample_event = inr (Accept vmi_job) ∧
  dedup a !! job_key vmi_job = None ∧
  placed (job_key vmi_job) a = [] ∧
  placed (job_key vmi_job)
    (run_actions [Present 0 sample_event; Present 10 sample_event] a) = [].
Proof. vm_compute. repeat split; reflexivity. Qed.

(** ** Events the handler does not survive *)

(** C8, the failing inputs: a timestamp that is a float but not a finite
    number ([1e999] decodes to infinity, [NaN] to not-a-number) passes the
    [isinstance] test and the allowlist, and [int] then raises out of the
    handler. Nothing is recorded or queued. *)
Lemma nonfinite_timestamp_escapes_handler :
  on_ws_event 0 overflowing_event (App_init allowlist)
    = (Raise OverflowError, App_init allowlist) ∧
  on_ws_event 0 nan_event (App_init allowlist)
    = (Raise (ValueError "cannot convert float NaN to integer"), App_init allowlist).
Proof. split; vm_compute; reflexivity. Qed.

(** ** Path resolution reads the world and leaves it alone *)

Lemma resolve_unfold (p : Path) (w : World) :
  resolve p w = (fst (resolve p w), w).
Proof. unfold resolve. by destruct (_joinrealpath _ _ _ _ _) as [e|[q seen]]. Qed.

Lemma resolve_same_namespace (p : Path) (w1 w2 : World) :
  same_namespace w1 w2 → fst (resolve p w1) = fst (resolve p w2).
Proof.
  intros (Hc & Hl). unfold resolve. rewrite Hc, Hl.
  by destruct (_joinrealpath _ _ _ _ _) as [e|[q seen]].
Qed.

Lemma safe_join_unfold (root rel : Path) (w : World) :
  safe_join root rel w = (fst (safe_join root rel w), w).
Proof.
  unfold safe_join, mbind, M_bind.
  rewrite (resolve_unfold (path_join root rel) w).
  destruct (fst (resolve (path_join root rel) w)) as [candidate|e]; [|done].
  rewrite (resolve_unfold root w).
  destruct (fst (resolve root w)) as [root'|e]; [|done].
  by destruct (negb _).
Qed.

Lemma safe_join_same_namespace (root rel : Path) (w1 w2 : World) :
  same_namespace w1 w2 → fst (safe_join root rel w1) = fst (safe_join root rel w2).
Proof.
  intros Hns. unfold safe_join, mbind, M_bind.
  rewrite (resolve_unfold (path_join root rel) w1),
          (resolve_unfold (path_join root rel) w2),
          (resolve_same_namespace _ w1 w2 Hns).
  destruct (fst (resolve (path_join root rel) w2)) as [candidate|e]; [|done].
  rewrite (resolve_unfold root w1), (resolve_unfold root w2),
          (resolve_same_namespace _ w1 w2 Hns).
  destruct (fst (resolve root w2)) as [root'|e]; [|done].
  by destruct (negb _).
Qed.

(** ** Skipping what is already on disk *)

(** What [exists] and [stat] answer depends on the node table alone. *)
Lemma path_exists_files (p : abspath) (w1 w2 : World) (b : bool) :
  nodes w1 = nodes w2 →
  fst (path_exists p w2) = Ok b → path_exists p w1 = (Ok b, w1).
Proof.
  intros Hn. unfold path_exists. rewrite Hn.
  destruct (refusal p) as [[]|]; simpl; by intros [= ->].
Qed.

Lemma st_size_files (p : abspath) (w1 w2 : World) (size : Z) :
  nodes w1 = nodes w2 → dir_size w1 = dir_size w2 →
  fst (st_size p w2) = Ok size → st_size p w1 = (Ok size, w1).
Proof.
  intros Hn Hd. unfold st_size. rewrite Hn, Hd.
  destruct (refusal p); simpl; [done|].
  destruct (node_at (nodes w2) p) as [[data|]|]; simpl; [| |done]; by intros [= ->].
Qed.

(** [process_job] on the path that returns on line 153. *)
Lemma process_job_skips (remote : Remote) (output_dir : Path) (endpoint : string)
    (job : Job) (w : World) (d : pydict) (key : string) (dest : abspath) (size : Z) :
  api_post remote endpoint (productType job) (productDate job)
    = PostResponse true (Some (JDict d)) →
  dict_get d "key" = JStr key →
  key ≠ "" →
  truthy (dict_get d "url") = true →
  fst (safe_join output_dir (ensure_relative_path key) w) = Ok dest →
  fst (path_exists dest w) = Ok true →
  fst (st_size dest w) = Ok size →
  0 < size →
  process_job remote output_dir endpoint job w
  = (Ok (), add_wlog (LogSkipExisting dest)
              (add_request (ReqPost endpoint (productType job) (productDate job)) w)).
Proof.
  intros Hpost Hk Hne Hurl Hjoin Hex Hsize Hpos.
  set (w1 := add_request (ReqPost endpoint (productType job) (productDate job)) w).
  assert (String.eqb key "" = false) as Hkt by (by apply String.eqb_neq).
  unfold process_job. rewrite Hpost.
  unfold mbind, M_bind, modify, mret, M_ret, gets, raise. simpl. fold w1.
  rewrite !Hk. simpl. rewrite Hkt, Hurl. simpl.
  rewrite (safe_join_unfold output_dir (ensure_relative_path key) w1).
  rewrite (safe_join_same_namespace _ _ w1 w) by done.
  rewrite Hjoin.
  rewrite (path_exists_files dest w1 w true) by done.
  rewrite (st_size_files dest w1 w size) by done.
  simpl. assert ((0 <? size) = true) as -> by (apply Z.ltb_lt; lia). done.
Qed.

(** C5: when the lookup answers with a key and a URL, the destination
    resolved from the key exists and its size is positive, processing the
    job returns normally; the only request made is the lookup POST (no GET
    of the artifact), no file-system call is made and the node table is
    what it was. *)
Theorem skip_existing_file (remote : Remote) (output_dir : Path) (endpoint : string)
    (job : Job) (w : World) (d : pydict) (key : string) (dest : abspath) (size : Z) :
  api_post remote endpoint (productType job) (productDate job)
    = PostResponse true (Some (JDict d)) →
  d !! "key" = Some (JStr key) →
  key ≠ "" →
  truthy (dict_get d "url") = true →
  fst (safe_join output_dir (ensure_relative_path key) w) = Ok dest →
  fst (path_exists dest w) = Ok true →
  fst (st_size dest w) = Ok size →
  0 < size →
  ∃ w' : World,
    process_job remote output_dir endpoint job w = (Ok (), w') ∧
    requests w' = requests w ++ [ReqPost endpoint (productType job) (productDate job)] ∧
    syscalls w' = syscalls w ∧
    nodes w' = nodes w ∧
    wlog w' = wlog w ++ [LogSkipExisting dest].
Proof.
  intros Hpost Hkey Hne Hurl Hjoin Hex Hsize Hpos.
  exists (add_wlog (LogSkipExisting dest)
            (add_request (ReqPost endpoint (productType job) (productDate job)) w)).
  split; [|done].
  apply (process_job_skips remote output_dir endpoint job w d key dest size);
    try done.
  unfold dict_get. by rewrite Hkey.
Qed.

Lemma skip_existing_file_witness :
  ∃ w' : World,
    process_job (fixed_remote "vmi/a.grib" (GetFailed ConnectionError)) out_root
      "https://api/downloadProduct" vmi_job world_with_grib = (Ok (), w') ∧
    requests w' = requests world_with_grib
                  ++ [ReqPost "https://api/downloadProduct" (productType vmi_job)
                        (productDate vmi_job)] ∧
    syscalls w' = syscalls world_with_grib ∧
    nodes w' = nodes world_with_grib ∧
    wlog w' = wlog world_with_grib ++ [LogSkipExisting grib_dest].
Proof.
  apply (skip_existing_file (fixed_remote "vmi/a.grib" (GetFailed ConnectionError))
           out_root "https://api/downloadProduct" vmi_job world_with_grib
           (<["key" := JStr "vmi/a.grib"]> (<["url" := JStr "https://store/object"]> ∅))
           "vmi/a.grib" grib_dest 4).
  - reflexivity.
  - reflexivity.
  - intros H. discriminate.
  - reflexivity.
  - vm_compute. reflexivity.
  - vm_compute. reflexivity.
  - vm_compute. reflexivity.
  - lia.
Defined.

(** ** Strings *)

Lemma app_cons (c : ascii) (s t : string) : String c s +:+ t = String c (s +:+ t).
Proof. reflexivity. Qed.

Lemma app_empty_r (s : string) : s +:+ "" = s.
Proof. induction s as [|c s IH]; [done|]. by rewrite app_cons, IH. Qed.

Lemma app_assoc_str (s t u : string) : (s +:+ t) +:+ u = s +:+ (t +:+ u).
Proof. induction s as [|c s IH]; [done|]. by rewrite !app_cons, IH. Qed.

Lemma length_app_str (s t : string) :
  String.length (s +:+ t) = (String.length s + String.length t)%nat.
Proof. induction s as [|c s IH]; [done|]. rewrite app_cons. simpl. by rewrite IH. Qed.

Lemma substring_whole (s : string) : String.substring 0 (String.length s) s = s.
Proof. induction s as [|c s IH]; [done|]. simpl. by rewrite IH. Qed.

Lemma substring_split (s : string) (i : nat) :
  (i <= String.length s)%nat →
  String.substring 0 i s +:+ String.substring i (String.length s - i) s = s.
Proof.
  revert i. induction s as [|c s IH]; intros i Hi.
  - destruct i; [done | simpl in Hi; lia].
  - destruct i as [|i]; simpl.
    + by rewrite substring_whole.
    + rewrite app_cons, IH; [done | simpl in Hi; lia].
Qed.

Lemma length_substring_tail (s : string) (i : nat) :
  (i <= String.length s)%nat →
  String.length (String.substring i (String.length s - i) s) = (String.length s - i)%nat.
Proof.
  revert i. induction s as [|c s IH]; intros i Hi.
  - by destruct i.
  - destruct i as [|i]; simpl.
    + by rewrite substring_whole.
    + apply IH. simpl in Hi. lia.
Qed.

Lemma concat_cons_cons (sep x y : string) (l : list string) :
  String.concat sep (x :: y :: l) = x +:+ sep +:+ String.concat sep (y :: l).
Proof. reflexivity. Qed.

(** A name is its stem followed by its suffix. *)
Lemma stem_suffix (name : string) :
  String.substring 0 (String.length name - String.length (name_suffix name)) name
  +:+ name_suffix name = name.
Proof.
  unfold name_suffix. destruct (rfind_dot name) as [i|].
  - destruct ((0 <? i)%nat && (i <? String.length name - 1)%nat) eqn:Hi.
    + apply andb_true_iff in Hi as [_ Hi]. apply Nat.ltb_lt in Hi.
      rewrite length_substring_tail by lia.
      replace (String.length name - (String.length name - i))%nat with i by lia.
      apply substring_split. lia.
    + simpl. by rewrite Nat.sub_0_r, substring_whole, app_empty_r.
  - simpl. by rewrite Nat.sub_0_r, substring_whole, app_empty_r.
Qed.

(** The temporary name of line 101 is the destination name with [".part"]
    appended, in the same directory. *)
Lemma with_suffix_part (dest : abspath) :
  path_name dest ≠ "" →
  with_suffix dest (name_suffix (path_name dest) +:+ DOWNLOAD_SUFFIX)
  = inr (path_parent dest ++ [path_name dest +:+ DOWNLOAD_SUFFIX]).
Proof.
  intros Hname. unfold with_suffix.
  rewrite bool_decide_eq_false_2 by done.
  do 3 f_equal. rewrite <- app_assoc_str. f_equal. apply stem_suffix.
Qed.

(** ** File-system operations *)

Lemma mkdir_from_spec (todo : list string) :
  ∀ (base : abspath) (w w1 : World) (r : res ()),
    mkdir_from base todo w = (r, w1) →
    same_but_files w w1 ∧
    (∃ made, syscalls w1 = syscalls w ++ map OpMkdir made) ∧
    (∀ p, (length (base ++ todo) < length p)%nat → nodes w1 !! p = nodes w !! p) ∧
    (r = Ok () → node_at (nodes w) base = Some Dir →
     node_at (nodes w1) (base ++ todo) = Some Dir).
Proof.
  induction todo as [|seg todo IH]; intros base w w1 r Hrun.
  - injection Hrun as <- <-. repeat split; try done.
    + exists []. by rewrite app_nil_r.
    + intros _ Hbase. by rewrite app_nil_r.
  - simpl in Hrun.
    assert (base ++ seg :: todo = (base ++ [seg]) ++ todo) as Hassoc
      by (by rewrite <- app_assoc).
    assert (∀ ns, node_at ns (base ++ [seg]) = ns !! (base ++ [seg])) as Hhere
      by (intros ns; by destruct base).
    destruct (NAME_MAX <? String.length seg)%nat.
    { injection Hrun as <- <-. repeat split; try done.
      exists []. by rewrite app_nil_r. }
    destruct (node_at (nodes w) (base ++ [seg])) as [[data|]|] eqn:Hnode.
    + injection Hrun as <- <-. repeat split; try done.
      exists []. by rewrite app_nil_r.
    + destruct (IH _ _ _ _ Hrun) as (Hsame & Hmade & Hframe & Hdir).
      rewrite Hassoc. repeat split; try done; try apply Hsame.
      intros Hr _. by apply Hdir.
    + destruct (IH _ _ _ _ Hrun) as (Hsame & [made Hmade] & Hframe & Hdir).
      rewrite Hassoc. repeat split; try apply Hsame.
      * exists ((base ++ [seg]) :: made). rewrite Hmade. simpl.
        by rewrite <- app_assoc.
      * intros p Hp. rewrite Hframe by done. simpl.
        apply lookup_insert_ne. intros <-.
        rewrite !length_app in Hp. simpl in Hp. lia.
      * intros Hr _. apply Hdir; [done|]. rewrite Hhere. simpl.
        apply lookup_insert_eq.
Qed.

(** What [mkdir] with [parents=True] leaves behind: only directories are
    made, nothing as deep as a file inside [p] is touched, and on success
    [p] is a directory. *)
Lemma mkdir_parents_spec (p : abspath) (w w1 : World) (r : res ()) :
  mkdir_parents p w = (r, w1) →
  same_but_files w w1 ∧
  (∃ made, syscalls w1 = syscalls w ++ map OpMkdir made) ∧
  (∀ q, (length p < length q)%nat → nodes w1 !! q = nodes w !! q) ∧
  (r = Ok () → node_at (nodes w1) p = Some Dir).
Proof.
  unfold mkdir_parents.
  destruct (existsb has_nul p);
    [intros [= <- <-]; repeat split; try done; exists []; by rewrite app_nil_r|].
  destruct (PATH_MAX <=? String.length (abspath_str p))%nat.
  - intros [= <- <-]. repeat split; try done. exists []. by rewrite app_nil_r.
  - intros Hrun. destruct (mkdir_from_spec _ _ _ _ _ Hrun) as (Hs & Hm & Hf & Hd).
    repeat split; try done; try apply Hs. intros Hr. by apply Hd.
Qed.

Lemma write_chunks_spec (tmp : abspath) (chunks : list string) :
  ∀ (data : string) (w : World),
    nodes w !! tmp = Some (File data) →
    write_chunks tmp chunks w = (Ok (), after_writes tmp data chunks w).
Proof.
  induction chunks as [|chunk rest IH]; intros data w Hfile.
  - simpl. unfold mret, M_ret, after_writes. simpl.
    rewrite app_empty_r, insert_id, app_nil_r by done.
    by destruct w.
  - simpl. unfold mbind, M_bind.
    destruct (String.eqb_spec chunk "") as [->|Hne]; simpl.
    + unfold mret, M_ret. rewrite (IH data w Hfile).
      unfold after_writes. by rewrite filter_cons_False by (intros H; by apply H).
    + unfold write_chunk, modify.
      set (w2 := add_syscall _ _).
      assert (nodes w2 !! tmp = Some (File (data +:+ chunk))) as Hfile2.
      { unfold w2. simpl. by rewrite lookup_alter_eq, Hfile. }
      rewrite (IH _ w2 Hfile2). unfold after_writes, w2. simpl.
      rewrite insert_alter_eq, filter_cons_True, app_assoc_str by done.
      simpl. by rewrite <- app_assoc.
Qed.

(** ** Atomic materialization *)

Lemma dest_split (dest : abspath) :
  path_name dest ≠ "" → dest = path_parent dest ++ [path_name dest].
Proof.
  intros Hname. apply app_removelast_last. intros ->. by apply Hname.
Qed.

Lemma part_file_neq (dest : abspath) : path_name dest ≠ "" → part_file dest ≠ dest.
Proof.
  intros Hname Heq. unfold part_file in Heq.
  rewrite (dest_split dest Hname) in Heq at 3.
  apply app_inj_tail in Heq as [_ Heq].
  apply (f_equal String.length) in Heq. rewrite length_app_str in Heq.
  simpl in Heq. lia.
Qed.

Lemma part_file_parent (dest : abspath) : path_parent (part_file dest) = path_parent dest.
Proof. unfold part_file, path_parent. apply removelast_last. Qed.

Lemma part_file_name (dest : abspath) :
  path_name (part_file dest) = path_name dest +:+ DOWNLOAD_SUFFIX.
Proof. unfold part_file, path_name. apply last_last. Qed.

Lemma part_file_lookup (ns : gmap abspath node) (dest : abspath) :
  node_at ns (part_file dest) = ns !! part_file dest.
Proof. unfold part_file. by destruct (path_parent dest). Qed.

(** The temporary name is never empty, ["."] or [".."]. *)
Lemma part_name_plain (name : string) :
  name +:+ DOWNLOAD_SUFFIX ≠ "" ∧ name +:+ DOWNLOAD_SUFFIX ≠ "." ∧
  name +:+ DOWNLOAD_SUFFIX ≠ "..".
Proof.
  assert (5 <= String.length (name +:+ DOWNLOAD_SUFFIX))%nat as Hlen
    by (rewrite length_app_str; simpl; lia).
  repeat split; intros Heq; rewrite Heq in Hlen; simpl in Hlen; lia.
Qed.

Lemma concat_snoc_length (l : list string) (x : string) :
  String.length (String.concat "/" (l ++ [x]))
  = (String.length (String.concat "/" (l ++ [""])) + String.length x)%nat.
Proof.
  induction l as [|y [|z l] IH]; [done|..].
  - change ([y] ++ [x]) with (y :: [x]). change ([y] ++ [""]) with (y :: [""]).
    rewrite !concat_cons_cons, !length_app_str. simpl. lia.
  - change ((y :: z :: l) ++ [x]) with (y :: (z :: l) ++ [x]).
    change ((y :: z :: l) ++ [""]) with (y :: (z :: l) ++ [""]).
    change ((z :: l) ++ [x]) with (z :: (l ++ [x])) in *.
    change ((z :: l) ++ [""]) with (z :: (l ++ [""])) in *.
    rewrite !concat_cons_cons, !length_app_str, IH. lia.
Qed.

Lemma has_nul_app (s t : string) : has_nul (s +:+ t) = has_nul s || has_nul t.
Proof.
  induction s as [|c s IH]; [done|]. rewrite app_cons. simpl.
  by rewrite IH, orb_assoc.
Qed.

Lemma refusal_None (p : abspath) :
  refusal p = None ↔ existsb has_nul p = false ∧ name_too_long p = false.
Proof.
  unfold refusal. destruct (existsb has_nul p), (name_too_long p); naive_solver.
Qed.

Lemma refusal_snoc (parent : abspath) (name suffix : string) :
  refusal (parent ++ [name +:+ suffix]) = None → refusal (parent ++ [name]) = None.
Proof.
  rewrite !refusal_None. unfold name_too_long, abspath_str.
  rewrite !existsb_app. cbn [existsb].
  rewrite has_nul_app.
  rewrite !orb_false_r, !orb_false_iff, !Nat.leb_gt, !Nat.ltb_ge, !length_app_str.
  rewrite (concat_snoc_length parent name),
          (concat_snoc_length parent (name +:+ suffix)), length_app_str.
  intros ((Hnul & Hname & _) & Hpath & Hdirs & Hlast).
  repeat split; [done | done | lia | done | lia].
Qed.

(** A call that accepts the temporary name of a destination accepts the
    destination. *)
Lemma refusal_dest (dest : abspath) :
  path_name dest ≠ "" →
  refusal (part_file dest) = None → refusal dest = None.
Proof.
  intros Hname Hpart. rewrite (dest_split dest Hname).
  by apply (refusal_snoc _ _ DOWNLOAD_SUFFIX).
Qed.

(** Looking up a last component that is no link. *)
Lemma namei_plain (lnk : gmap abspath string) (ns : gmap abspath node) (fuel : nat)
    (parent : abspath) (name : string) :
  name ≠ "" → name ≠ "." → name ≠ ".." →
  lnk !! (parent ++ [name]) = None →
  namei lnk ns fuel parent [name] = inr (parent ++ [name]).
Proof.
  intros H1 H2 H3 Hno. destruct fuel; simpl;
    rewrite bool_decide_eq_false_2 by (intros [?|?]; done);
    rewrite bool_decide_eq_false_2 by done; by rewrite Hno.
Qed.

(** Opening a temporary name that is not a symbolic link. *)
Lemma open_wb_part (dest : abspath) (w : World) :
  refusal (part_file dest) = None →
  links w !! part_file dest = None →
  node_at (nodes w) (path_parent dest) = Some Dir →
  node_at (nodes w) (part_file dest) ≠ Some Dir →
  open_wb (part_file dest) w
  = (Ok (part_file dest),
     add_syscall (OpOpenWb (part_file dest))
       (set_nodes (insert (part_file dest) (File "")) w)).
Proof.
  intros Hlong Hlink Hdir Hnodir. unfold open_wb.
  rewrite Hlong, part_file_parent, part_file_name.
  destruct (part_name_plain (path_name dest)) as (H1 & H2 & H3).
  rewrite namei_plain by done.
  change (path_parent dest ++ [path_name dest +:+ DOWNLOAD_SUFFIX])
    with (part_file dest).
  rewrite part_file_parent, Hdir.
  by destruct (node_at (nodes w) (part_file dest)) as [[data|]|].
Qed.

(** [chunked_download] from the moment the stream starts, when the
    temporary name is one the system accepts and is not a symbolic link. *)
Lemma chunked_download_streams (remote : Remote) (url : json) (dest : abspath)
    (w w1 : World) (chunks : list string) (broken : option exn) :
  path_name dest ≠ "" →
  mkdir_parents (path_parent dest) w = (Ok (), w1) →
  http_get remote url = GetResponse true chunks broken →
  refusal (part_file dest) = None →
  links w !! part_file dest = None →
  node_at (nodes w1) (part_file dest) ≠ Some Dir →
  chunked_download remote url dest w
  = match broken with
    | Some e =>
        (Raise e,
         after_writes (part_file dest) "" chunks
           (add_syscall (OpOpenWb (part_file dest))
              (set_nodes (insert (part_file dest) (File ""))
                 (add_request (ReqGet url) w1))))
    | None =>
        replace (part_file dest) dest
          (after_writes (part_file dest) "" chunks
             (add_syscall (OpOpenWb (part_file dest))
                (set_nodes (insert (part_file dest) (File ""))
                   (add_request (ReqGet url) w1))))
    end.
Proof.
  intros Hname Hmk Hget Hlong Hlink Hnodir.
  destruct (mkdir_parents_spec _ _ _ _ Hmk) as ((_ & Hlinks & _) & _ & _ & Hdir).
  specialize (Hdir eq_refl).
  set (tmp := part_file dest) in *.
  set (w2 := add_request (ReqGet url) w1).
  set (w3 := add_syscall (OpOpenWb tmp) (set_nodes (insert tmp (File "")) w2)).
  assert (open_wb tmp w2 = (Ok tmp, w3)) as Hopen.
  { apply open_wb_part; try done. simpl. by rewrite Hlinks. }
  assert (write_chunks tmp chunks w3 = (Ok (), after_writes tmp "" chunks w3))
    as Hwrite.
  { apply write_chunks_spec. unfold w3. simpl. apply lookup_insert_eq. }
  unfold chunked_download, mbind, M_bind. rewrite Hmk.
  rewrite (with_suffix_part dest Hname).
  unfold lift_sum, mret, M_ret, modify, raise. fold w2. rewrite Hget.
  change (path_parent dest ++ [path_name dest +:+ DOWNLOAD_SUFFIX]) with tmp.
  rewrite Hopen, Hwrite. by destruct broken.
Qed.




(** ** Path containment: where the check falls short *)

(** C2, the failing inputs. The key [".."] (or ["/"]) is cleaned to the
    empty relative path, the destination is the output root itself, and
    [safe_join] lets it through: the download then writes [/srv/out.part],
    next to the root, and renames it over the root. With a link below the
    root, a destination in the sibling [/srv/out2] passes the string-prefix
    test as well, and the file is written there. *)
Lemma containment_check_lets_escapes_through :
  fst (safe_join out_root (ensure_relative_path "..") fresh_world)
    = Ok ["srv"; "out"] ∧
  fst (safe_join out_root (ensure_relative_path "/") fresh_world)
    = Ok ["srv"; "out"] ∧
  ¬ strictly_inside ["srv"; "out"] ["srv"; "out"] ∧
  syscalls (snd (process_job (fixed_remote ".." (GetResponse true ["GRIB"] None))
                   out_root api_url vmi_job fresh_world))
    = [OpOpenWb ["srv"; "out.part"]; OpWrite ["srv"; "out.part"] "GRIB";
       OpReplace ["srv"; "out.part"] ["srv"; "out"]] ∧
  ¬ strictly_inside ["srv"; "out"] ["srv"; "out.part"] ∧
  syscalls (snd (process_job (fixed_remote "l/x" (GetResponse true ["GRIB"] None))
                   out_root api_url vmi_job world_with_sibling_link))
    = [OpOpenWb ["srv"; "out2"; "x.part"]; OpWrite ["srv"; "out2"; "x.part"] "GRIB";
       OpReplace ["srv"; "out2"; "x.part"] ["srv"; "out2"; "x"]] ∧
  ¬ strictly_inside ["srv"; "out"] ["srv"; "out2"; "x"].
Proof.
  repeat split; try (vm_compute; reflexivity);
    intros (seg & rest & H); simpl in H; congruence.
Qed.

(** ** What [ensure_relative_path] returns *)

Lemma split_slash_slash_free (s : string) :
  Forall (λ piece, slash_free piece = true) (split_slash s).
Proof.
  induction s as [|c s IH]; simpl.
  - by constructor.
  - destruct (is_slash c) eqn:Hc; [by constructor|].
    destruct (split_slash s) as [|piece pieces]; simpl.
    + constructor; [simpl; by rewrite Hc | done].
    + apply Forall_cons in IH as [Hp Hps].
      constructor; [simpl; by rewrite Hc | done].
Qed.

Lemma split_slash_one (s : string) : slash_free s = true → split_slash s = [s].
Proof.
  induction s as [|c s IH]; [done|]. simpl.
  intros [Hc Hs]%andb_true_iff. apply negb_true_iff in Hc.
  by rewrite Hc, IH.
Qed.

Lemma split_slash_app (s t : string) :
  slash_free s = true → split_slash (s +:+ "/" +:+ t) = s :: split_slash t.
Proof.
  induction s as [|c s IH]; [done|]. simpl.
  intros [Hc Hs]%andb_true_iff. apply negb_true_iff in Hc.
  by rewrite Hc, IH.
Qed.

Lemma split_slash_concat (segs : list string) :
  segs ≠ [] →
  Forall (λ seg, slash_free seg = true) segs →
  split_slash (String.concat "/" segs) = segs.
Proof.
  induction segs as [|x [|y l] IH]; intros Hne Hfree; [done|..].
  - apply split_slash_one. by apply Forall_cons in Hfree as [? _].
  - apply Forall_cons in Hfree as [Hx Hrest].
    rewrite concat_cons_cons, split_slash_app by done.
    f_equal. by apply IH.
Qed.

Lemma starts_with_slash_free (s : string) :
  slash_free s = true → starts_with_slash s = false.
Proof.
  destruct s as [|c s]; [done|]. simpl.
  intros [Hc _]%andb_true_iff. by apply negb_true_iff.
Qed.

Lemma starts_with_slash_app (s t : string) :
  s ≠ "" → starts_with_slash (s +:+ t) = starts_with_slash s.
Proof. by destruct s. Qed.

Lemma ends_with_slash_free (s : string) :
  slash_free s = true → ends_with_slash s = false.
Proof.
  induction s as [|c s IH]; [done|]. simpl.
  intros [Hc Hs]%andb_true_iff. apply negb_true_iff in Hc.
  destruct s; [done | by apply IH].
Qed.

Lemma ends_with_slash_app (s t : string) :
  t ≠ "" → ends_with_slash (s +:+ t) = ends_with_slash t.
Proof.
  intros Ht. induction s as [|c s IH]; [done|].
  rewrite app_cons. simpl. rewrite IH.
  destruct (s +:+ t) eqn:Hst; [|done].
  destruct s; [by destruct t | done].
Qed.

Lemma join_onto (segs : list string) :
  ∀ acc : string,
    acc ≠ "" → ends_with_slash acc = false →
    Forall clean segs →
    foldl posix_join2 acc segs = String.concat "/" (acc :: segs).
Proof.
  induction segs as [|seg rest IH]; intros acc Hacc Hend Hclean; [done|].
  apply Forall_cons in Hclean as [(Hne & _ & _ & Hfree) Hrest].
  simpl foldl.
  assert (posix_join2 acc seg = acc +:+ "/" +:+ seg) as ->.
  { unfold posix_join2.
    rewrite starts_with_slash_free, Hend, bool_decide_eq_false_2 by done.
    done. }
  rewrite IH; [|by destruct acc| |done].
  - rewrite concat_cons_cons. destruct rest as [|r rs]; [done|].
    by rewrite !concat_cons_cons, !app_assoc_str.
  - rewrite <- app_assoc_str, ends_with_slash_app by done.
    by apply ends_with_slash_free.
Qed.

Lemma join_clean (segs : list string) :
  Forall clean segs → foldl posix_join2 "" segs = String.concat "/" segs.
Proof.
  destruct segs as [|seg rest]; [done|]. intros Hclean.
  pose proof Hclean as [(Hne & _ & _ & Hfree) Hrest]%Forall_cons.
  simpl foldl.
  assert (posix_join2 "" seg = seg) as ->.
  { unfold posix_join2. by rewrite starts_with_slash_free. }
  apply join_onto; [done | by apply ends_with_slash_free | done].
Qed.

Lemma filter_all {A} (P : A → Prop) `{∀ x, Decision (P x)} (l : list A) :
  Forall P l → filter P l = l.
Proof.
  induction 1 as [|x l Hx Hl IH]; [done|].
  by rewrite filter_cons_True, IH.
Qed.

(** [Path] applied to clean segments is the relative path made of them. *)
Lemma Path_of_segments_clean (segs : list string) :
  Forall clean segs → Path_of_segments segs = mkPath false segs.
Proof.
  intros Hclean. unfold Path_of_segments, Path_of_string.
  rewrite join_clean by done.
  assert (Forall (λ seg, slash_free seg = true) segs) as Hfree.
  { eapply Forall_impl; [exact Hclean|]. by intros seg (_ & _ & _ & ?). }
  f_equal.
  - destruct segs as [|seg rest]; [done|].
    apply Forall_cons in Hclean as [(Hne & _ & _ & Hf) _].
    destruct rest as [|r rs]; [by apply starts_with_slash_free|].
    rewrite concat_cons_cons, starts_with_slash_app by done.
    by apply starts_with_slash_free.
  - destruct segs as [|seg rest]; [done|].
    rewrite split_slash_concat by done.
    apply filter_all. eapply Forall_impl; [exact Hclean|].
    by intros s (? & ? & _).
Qed.

(** [ensure_relative_path] returns a relative path of clean components. *)
Lemma ensure_relative_path_clean (key : string) :
  ∃ segs, ensure_relative_path key = mkPath false segs ∧ Forall clean segs.
Proof.
  unfold ensure_relative_path.
  set (p := as_posix _).
  set (segs := filter _ (split_slash p)).
  assert (Forall clean segs) as Hclean.
  { apply Forall_forall. intros seg Hin.
    apply list_elem_of_filter in Hin as [Hkeep Hin].
    pose proof (split_slash_slash_free p) as Hfree.
    rewrite Forall_forall in Hfree.
    repeat split; [..|by apply Hfree]; intros ->; apply Hkeep; set_solver. }
  exists segs. split; [|done]. by apply Path_of_segments_clean.
Qed.

(** ** [ensure_relative_path], exactly *)

Lemma key_segments_clean (key : string) : Forall clean (key_segments key).
Proof.
  apply Forall_forall. intros seg Hin.
  apply list_elem_of_filter in Hin as [Hkeep Hin].
  pose proof (split_slash_slash_free key) as Hfree.
  rewrite Forall_forall in Hfree.
  repeat split; [..|by apply Hfree]; intros ->; apply Hkeep; set_solver.
Qed.

Lemma key_segments_lstrip (key : string) :
  key_segments (lstrip_slash key) = key_segments key.
Proof.
  unfold key_segments, lstrip_slash.
  induction key as [|c key IH]; [done|]. simpl.
  destruct (is_slash c) eqn:Hc; [|simpl; by rewrite Hc].
  rewrite IH, filter_cons_False; [done|]. intros H. apply H. set_solver.
Qed.

Lemma lstrip_slash_relative (key : string) :
  starts_with_slash (lstrip_slash key) = false.
Proof.
  unfold lstrip_slash. induction key as [|c key IH]; [done|]. simpl.
  destruct (is_slash c) eqn:Hc; [done|]. simpl. exact Hc.
Qed.

Lemma filter_narrow {A} (P Q : A → Prop) `{∀ x, Decision (P x)}
    `{∀ x, Decision (Q x)} (l : list A) :
  (∀ x, P x → Q x) → filter P (filter Q l) = filter P l.
Proof.
  intros HPQ. induction l as [|x l IH]; [done|].
  destruct (decide (Q x)) as [HQ|HQ].
  - rewrite (filter_cons_True Q) by done.
    destruct (decide (P x)).
    + by rewrite !(filter_cons_True P), IH.
    + by rewrite !(filter_cons_False P), IH.
  - rewrite (filter_cons_False Q), (filter_cons_False P); auto.
Qed.

Lemma ensure_relative_path_unfold (key : string) :
  ensure_relative_path key = mkPath false (key_segments key).
Proof.
  rewrite <- key_segments_lstrip.
  unfold ensure_relative_path. set (k := lstrip_slash key).
  assert (filter (λ seg, seg ∉ ["" ; "." ; ".."])
            (split_slash (as_posix (Path_of_string k))) = key_segments k) as ->.
  { unfold as_posix, Path_of_string. cbn [absolute parts].
    unfold k at 1. rewrite lstrip_slash_relative.
    set (P := filter _ (split_slash k)).
    assert (filter (λ seg, seg ∉ ["" ; "." ; ".."]) P = key_segments k) as HP.
    { unfold P, key_segments. apply filter_narrow.
      intros seg Hseg. split; intros ->; apply Hseg; set_solver. }
    assert (Forall (λ seg, slash_free seg = true) P) as Hfree.
    { unfold P. apply Forall_forall. intros seg Hin.
      apply list_elem_of_filter in Hin as [_ Hin].
      pose proof (split_slash_slash_free k) as Hall.
      rewrite Forall_forall in Hall. by apply Hall. }
    clearbody P. destruct P as [|x xs].
    - by rewrite <- HP.
    - by rewrite split_slash_concat. }
  apply Path_of_segments_clean, key_segments_clean.
Qed.

Lemma split_slash_nul_free (s : string) :
  has_nul s = false → Forall (λ piece, has_nul piece = false) (split_slash s).
Proof.
  induction s as [|c s IH]; simpl.
  - by constructor.
  - intros [Hc Hs]%orb_false_iff. specialize (IH Hs).
    destruct (is_slash c); [by constructor|].
    destruct (split_slash s) as [|piece pieces]; simpl.
    + constructor; [simpl; by rewrite Hc | done].
    + apply Forall_cons in IH as [Hp Hps].
      constructor; [simpl; by rewrite Hc, Hp | done].
Qed.

Lemma key_segments_nul_free (key : string) :
  has_nul key = false → Forall (λ seg, has_nul seg = false) (key_segments key).
Proof.
  intros Hkey. apply Forall_forall. intros seg [_ Hin]%list_elem_of_filter.
  pose proof (split_slash_nul_free key Hkey) as Hall.
  rewrite Forall_forall in Hall. by apply Hall.
Qed.

(** ** Resolution of a clean relative path *)

Lemma joinrealpath_nil (lnk : gmap abspath string) (depth : nat) (path : abspath)
    (seen : gmap abspath (option abspath)) :
  _joinrealpath lnk depth path [] seen = inr (path, seen).
Proof. by destruct depth. Qed.

Lemma joinrealpath_cons (lnk : gmap abspath string) (depth : nat) (path : abspath)
    (name : string) (rest : list string) (seen : gmap abspath (option abspath)) :
  _joinrealpath lnk depth path (name :: rest) seen =
  if bool_decide (name = "" ∨ name = ".") then _joinrealpath lnk depth path rest seen
  else if bool_decide (name = "..")
  then _joinrealpath lnk depth (removelast path) rest seen
  else if has_nul name then inl (ValueError "embedded null byte")
  else match lnk !! (path ++ [name]) with
       | None => _joinrealpath lnk depth (path ++ [name]) rest seen
       | Some target =>
           match seen !! (path ++ [name]) with
           | Some (Some resolved) => _joinrealpath lnk depth resolved rest seen
           | Some None => inl RuntimeError
           | None =>
               match depth with
               | O => inl RuntimeError
               | S depth' =>
                   match _joinrealpath lnk depth'
                           (if starts_with_slash target then [] else path)
                           (split_slash target) (<[path ++ [name] := None]> seen) with
                   | inl e => inl e
                   | inr (resolved, seen') =>
                       _joinrealpath lnk depth resolved rest
                         (<[path ++ [name] := Some resolved]> seen')
                   end
               end
           end
       end.
Proof. by destruct depth. Qed.

(** Clean components without a NUL and with no link on the way are
    appended as they are. *)
Lemma joinrealpath_clean (lnk : gmap abspath string) (depth : nat)
    (segs : list string) :
  ∀ (path : abspath) (seen : gmap abspath (option abspath)),
    Forall clean segs →
    Forall (λ seg, has_nul seg = false) segs →
    no_link_below lnk path segs →
    _joinrealpath lnk depth path segs seen = inr (path ++ segs, seen).
Proof.
  induction segs as [|seg rest IH]; intros path seen Hclean Hnul Hno.
  - by rewrite joinrealpath_nil, app_nil_r.
  - apply Forall_cons in Hclean as [(Hne & Hdot & Hup & _) Hrest].
    apply Forall_cons in Hnul as [Hseg Hnul].
    rewrite joinrealpath_cons.
    rewrite bool_decide_eq_false_2 by (intros [?|?]; done).
    rewrite bool_decide_eq_false_2 by done.
    rewrite Hseg, (Hno [seg]); [|done|by apply prefix_cons, prefix_nil].
    rewrite IH; [by rewrite <- app_assoc|done|done|].
    intros pre Hpre Hpref. rewrite <- app_assoc. simpl.
    apply Hno; [done | by apply prefix_cons].
Qed.

(** Resolution goes from left to right: once the front of a path has been
    resolved, the rest is resolved from there. *)
Lemma joinrealpath_app (lnk : gmap abspath string) (depth : nat) (ys : list string) :
  ∀ (xs : list string) (path path' : abspath)
    (seen seen' : gmap abspath (option abspath)),
    _joinrealpath lnk depth path xs seen = inr (path', seen') →
    _joinrealpath lnk depth path (xs ++ ys) seen
    = _joinrealpath lnk depth path' ys seen'.
Proof.
  induction xs as [|name rest IH]; intros path path' seen seen' Hxs.
  - rewrite joinrealpath_nil in Hxs. by injection Hxs as -> ->.
  - rewrite joinrealpath_cons in Hxs.
    change ((name :: rest) ++ ys) with (name :: (rest ++ ys)).
    rewrite joinrealpath_cons.
    repeat case_bool_decide; try by apply IH.
    destruct (has_nul name); [done|].
    destruct (lnk !! (path ++ [name])) as [target|]; [|by apply IH].
    destruct (seen !! (path ++ [name])) as [[resolved|]|]; [by apply IH | done |].
    destruct depth as [|depth']; [done|].
    destruct (_joinrealpath lnk depth' _ _ _) as [e|[resolved seen1]]; [done|].
    by apply IH.
Qed.

Lemma prefix_empty (s : string) : String.prefix "" s = true.
Proof. by destruct s. Qed.

Lemma prefix_app (s t : string) : String.prefix s (s +:+ t) = true.
Proof.
  induction s as [|c s IH]; [apply prefix_empty|].
  rewrite app_cons. simpl. by destruct (ascii_dec c c).
Qed.

Lemma prefix_refl (s : string) : String.prefix s s = true.
Proof. rewrite <- (app_empty_r s) at 2. apply prefix_app. Qed.

Lemma prefix_app_same (a s t : string) :
  String.prefix (a +:+ s) (a +:+ t) = String.prefix s t.
Proof.
  induction a as [|c a IH]; [done|].
  rewrite !app_cons. simpl. by destruct (ascii_dec c c).
Qed.

Lemma prefix_concat (l l' : list string) :
  String.prefix (String.concat "/" l) (String.concat "/" (l ++ l')) = true.
Proof.
  induction l as [|x [|y l] IH].
  - apply prefix_empty.
  - destruct l' as [|z l']; [apply prefix_refl|].
    change ([x] ++ z :: l') with (x :: z :: l').
    rewrite concat_cons_cons. apply prefix_app.
  - change ((x :: y :: l) ++ l') with (x :: y :: (l ++ l')).
    change ((y :: l) ++ l') with (y :: (l ++ l')) in IH.
    rewrite !concat_cons_cons, !prefix_app_same. apply IH.
Qed.




(** ** Shutdown *)

Lemma stranded_step (remote : Remote) (output_dir : Path) (api_endpoint : string)
    (job : Job) (s s' : System) :
  step remote output_dir api_endpoint s s' →
  stranded job s → stranded job s'.
Proof.
  intros Hstep (Hmain & Hstop & Hitems & Hcount & Hworkers).
  assert (∀ i pc, workers s !! i = Some pc → pc = Returned ∨ pc = AtLoopTest)
    as Hpc by (by apply Forall_lookup).
  destruct Hstep as
    [s _|s now objs Hl|s Hl _|s _ Hzero|s now _ Hrun
    |s i Hi _|s i _ Hrun|s i j q Hi _|s i Hi _|s i j Hi]; simpl in *;
    try congruence;
    try (destruct (Hpc _ _ Hi) as [?|?]; congruence).
  - done.
  - repeat split; try done. apply Forall_insert; [done | by left].
Qed.

Lemma stranded_forever (remote : Remote) (output_dir : Path) (api_endpoint : string)
    (job : Job) (s s' : System) :
  reaches remote output_dir api_endpoint s s' →
  stranded job s → stranded job s'.
Proof.
  induction 1 as [|s1 s2 s3 Hstep _ IH]; [done|].
  intros Hs. apply IH. by eapply stranded_step.
Qed.

(** C4, the failing run. Two events arrive in one frame; a worker takes
    the first job; the termination signal is handled; the worker finishes
    its job, sees the stop event and returns. The second job is still in
    the queue, and from then on, whatever the threads do, it stays there
    and [jobs.join()] never returns. Beside that, an event that arrives on
    the open connection after the signal is queued like any other. *)
Theorem shutdown_strands_queued_job :
  (∃ s : System,
     reaches store out_root api_url initial_system s ∧
     stranded sri_job s ∧
     ∀ s', reaches store out_root api_url s s' →
           main s' ≠ Exited ∧ items (jobs (app s')) = [sri_job]) ∧
  items (jobs (snd (run_forever
                      [mkSession [Signal; Frame 1 [JDict sample_event]] None]
                      (App_init allowlist))))
  = [vmi_job].
Proof.
  split; [|vm_compute; reflexivity].
  eexists. split; [|split].
  - eapply rtc_l.
    { apply (step_frame _ _ _ _ 0%Q [JList [JDict sample_event; JDict sri_event]]).
      reflexivity. }
    eapply rtc_l.
    { apply (step_worker_polls _ _ _ _ 0%nat); reflexivity. }
    eapply rtc_l.
    { apply (step_worker_gets _ _ _ _ 0%nat vmi_job); [reflexivity|].
      vm_compute. reflexivity. }
    eapply rtc_l.
    { apply step_signal. discriminate. }
    eapply rtc_l.
    { apply (step_worker_finishes _ _ _ _ 0%nat vmi_job). reflexivity. }
    eapply rtc_l.
    { apply step_listener_returns; reflexivity. }
    apply rtc_refl.
  - repeat split; try (vm_compute; reflexivity).
    vm_compute. repeat (constructor; [right; reflexivity|]). constructor.
  - intros s' Hreach.
    eapply stranded_forever in Hreach as (Hmain & _ & Hitems & _).
    + split; [congruence | exact Hitems].
    + repeat split; try (vm_compute; reflexivity).
      vm_compute. repeat (constructor; [right; reflexivity|]). constructor.
Qed.

(** * The rest of the module *)

(** ** The sweep *)

(** One pass of [_gc_loop] is a filter on the cache: the entries older than
    three hours go, every other entry stays as it is, and nothing else of the
    application changes. *)
Theorem gc_sweep_is_filter (now : Q) (a : App) :
  dedup (snd (gc_sweep now a)) = filter (retained now) (dedup a) ∧
  fst (gc_sweep now a) = Ok () ∧
  jobs (snd (gc_sweep now a)) = jobs a ∧
  products (snd (gc_sweep now a)) = products a ∧
  stop_event (snd (gc_sweep now a)) = stop_event a ∧
  log (snd (gc_sweep now a)) = log a.
Proof.
  split; [|done].
  apply map_eq. intros k. rewrite gc_sweep_lookup.
  apply option_eq. intros ts. rewrite map_lookup_filter_Some.
  unfold retained. simpl.
  destruct (dedup a !! k) as [ts'|]; [|naive_solver].
  destruct (decide (ts' < now - RETENTION)%Q); naive_solver.
Qed.

(** Retention expiry: an identity key recorded more than three hours before
    a sweep is gone after it, and the next event with that key is queued
    again when the queue has room, with a fresh cache entry. *)
Theorem expired_key_is_enqueued_again (a : App) (now now' since : Q)
    (ev : pydict) (job : Job) :
  classify (products a) ev = inr (Accept job) →
  dedup a !! job_key job = Some since →
  (since < now - RETENTION)%Q →
  (length (items (jobs a)) < MAXSIZE)%nat →
  let swept := snd (gc_sweep now a) in
  let a' := snd (on_ws_event now' ev swept) in
  dedup swept !! job_key job = None ∧
  items (jobs a') = items (jobs a) ++ [job] ∧
  dedup a' !! job_key job = Some now'.
Proof.
  intros Hc Hk Hold Hroom swept a'.
  assert (dedup swept !! job_key job = None) as Hgone.
  { unfold swept. rewrite gc_sweep_lookup, Hk. by rewrite decide_True. }
  split; [done|].
  unfold a'. rewrite on_ws_event_unfold.
  change (products swept) with (products a). rewrite Hc, Hgone.
  rewrite bool_decide_eq_false_2 by (intros [? ?]; done).
  change (jobs swept) with (jobs a). rewrite put_nowait_room by done.
  destruct (utcfromtimestamp_ok (productDate job)); simpl;
    by rewrite lookup_insert_eq.
Qed.

Lemma expired_key_is_enqueued_again_witness :
  let a := snd (on_ws_event 0 sample_event (App_init allowlist)) in
  let swept := snd (gc_sweep 10801 a) in
  let a' := snd (on_ws_event 10802 sample_event swept) in
  dedup swept !! job_key vmi_job = None ∧
  items (jobs a') = items (jobs a) ++ [vmi_job] ∧
  dedup a' !! job_key vmi_job = Some 10802%Q.
Proof.
  intros a.
  apply (expired_key_is_enqueued_again a 10801 10802 0 sample_event vmi_job).
  - vm_compute. reflexivity.
  - vm_compute. reflexivity.
  - vm_compute. reflexivity.
  - apply Nat.ltb_lt. vm_compute. reflexivity.
Defined.

(** ** What the handler never does *)

(** [on_ws_event] only ever adds: cache entries stay, queued jobs stay in
    their order with at most one new job behind them, log records stay, and
    the allowlist and the stop event are not written. *)
Theorem on_ws_event_only_adds (now : Q) (ev : pydict) (a : App) :
  let a' := snd (on_ws_event now ev a) in
  dedup a ⊆ dedup a' ∧
  (items (jobs a') = items (jobs a) ∨
   ∃ job, classify (products a) ev = inr (Accept job) ∧
          items (jobs a') = items (jobs a) ++ [job]) ∧
  log a `prefix_of` log a' ∧
  products a' = products a ∧
  stop_event a' = stop_event a.
Proof.
  simpl. rewrite on_ws_event_unfold.
  destruct (classify (products a) ev) as [e|[why|job]]; simpl.
  - repeat split; try done. by left.
  - repeat split; try done; [by left | by apply prefix_app_r].
  - case_bool_decide as Hseen; simpl.
    { repeat split; try done. by left. }
    assert (dedup a ⊆ <[job_key job := now]> (dedup a)) as Hsub.
    { apply insert_subseteq. destruct (dedup a !! job_key job) eqn:E; [|done].
      exfalso. apply Hseen. by eexists. }
    unfold put_nowait.
    destruct (MAXSIZE <=? length (items (jobs a)))%nat; simpl.
    { repeat split; try done; [by left | by apply prefix_app_r]. }
    destruct (utcfromtimestamp_ok (productDate job)); simpl;
      repeat split; try done; try (right; by exists job).
    by apply prefix_app_r.
Qed.

(** The queue never holds more than its thousand jobs, whatever is
    presented, swept, taken or reported done. *)
Theorem queue_stays_within_maxsize (xs : list action) (a : App) :
  (length (items (jobs a)) <= MAXSIZE)%nat →
  (length (items (jobs (run_actions xs a))) <= MAXSIZE)%nat.
Proof.
  revert a. induction xs as [|x xs IH]; intros a Hle; [done|].
  unfold run_actions in *. simpl. apply IH.
  destruct x as [now ev|now| |]; cbn [act].
  - rewrite on_ws_event_unfold.
    destruct (classify (products a) ev) as [e|[why|job]]; simpl; try done.
    case_bool_decide; simpl; [done|].
    unfold put_nowait.
    destruct (MAXSIZE <=? length (items (jobs a)))%nat eqn:E; simpl; [done|].
    apply Nat.leb_gt in E.
    destruct (utcfromtimestamp_ok (productDate job)); simpl;
      rewrite length_app; simpl; lia.
  - done.
  - unfold queue_get. destruct (items (jobs a)) as [|j rest] eqn:E; simpl.
    + by rewrite E.
    + simpl in Hle. lia.
  - unfold queue_after_task_done, task_done.
    by destruct (unfinished_tasks (jobs a)).
Qed.

Lemma queue_stays_within_maxsize_witness :
  (length (items (jobs (run_actions [Present 0 sample_event; WorkerGet]
                          (app_with_backlog 1000)))) <= MAXSIZE)%nat.
Proof.
  apply (queue_stays_within_maxsize [Present 0 sample_event; WorkerGet]
           (app_with_backlog 1000)).
  apply Nat.leb_le. vm_compute. reflexivity.
Defined.

(** ** The counter behind [jobs.join()] *)

Lemma in_flight_cons (pc : worker_pc) (ws : list worker_pc) :
  in_flight (pc :: ws) = (Nat.b2n (is_processing pc) + in_flight ws)%nat.
Proof.
  unfold in_flight. destruct (is_processing pc) eqn:E.
  - by rewrite filter_cons_True.
  - rewrite filter_cons_False; [done|]. by rewrite E.
Qed.

Lemma in_flight_insert (ws : list worker_pc) :
  ∀ (i : nat) (pc pc' : worker_pc),
    ws !! i = Some pc →
    (in_flight (<[i := pc']> ws) + Nat.b2n (is_processing pc)
     = in_flight ws + Nat.b2n (is_processing pc'))%nat.
Proof.
  induction ws as [|w ws IH]; intros i pc pc' Hi; [done|].
  destruct i as [|i]; simpl in *.
  - injection Hi as ->. rewrite !in_flight_cons. lia.
  - rewrite !in_flight_cons. specialize (IH i pc pc' Hi). lia.
Qed.

Lemma on_ws_event_owed (now : Q) (ev : pydict) (a : App) (n : nat) :
  unfinished_tasks (jobs a) = (length (items (jobs a)) + n)%nat →
  unfinished_tasks (jobs (snd (on_ws_event now ev a)))
  = (length (items (jobs (snd (on_ws_event now ev a)))) + n)%nat.
Proof.
  intros Hbal. rewrite on_ws_event_unfold.
  destruct (classify (products a) ev) as [e|[why|job]]; simpl; try done.
  case_bool_decide; simpl; [done|].
  unfold put_nowait.
  destruct (MAXSIZE <=? length (items (jobs a)))%nat; simpl; [done|].
  destruct (utcfromtimestamp_ok (productDate job)); simpl;
    rewrite length_app; simpl; lia.
Qed.

Lemma deliver_owed (now : Q) (evs : list pydict) :
  ∀ (a : App) (n : nat),
    unfinished_tasks (jobs a) = (length (items (jobs a)) + n)%nat →
    unfinished_tasks (jobs (snd (deliver now evs a)))
    = (length (items (jobs (snd (deliver now evs a)))) + n)%nat.
Proof.
  induction evs as [|ev evs IH]; intros a n Hbal; [done|].
  simpl. unfold mbind, M_bind.
  pose proof (on_ws_event_owed now ev a n Hbal) as Hstep.
  destruct (on_ws_event now ev a) as [[[]|e] a1]; simpl in *; [|done].
  by apply IH.
Qed.

(** Across every step of every thread, [unfinished_tasks] is the number of
    queued jobs plus the number of jobs a worker is processing. So
    [task_done] is never called once too often, and when [jobs.join()]
    returns the queue is empty and no worker holds a job. *)
Theorem unfinished_tasks_balance (remote : Remote) (output_dir : Path)
    (api_endpoint : string) (s s' : System) :
  balanced s →
  reaches remote output_dir api_endpoint s s' →
  balanced s' ∧
  (∀ i job, workers s' !! i = Some (Processing job) →
            ∃ q, task_done (jobs (app s')) = inr q) ∧
  (unfinished_tasks (jobs (app s')) = 0%nat →
   items (jobs (app s')) = [] ∧ in_flight (workers s') = 0%nat).
Proof.
  intros Hbal Hreach.
  assert (balanced s') as Hbal'.
  { induction Hreach as [|s1 s2 s3 Hstep _ IH]; [done|]. apply IH.
    clear IH. unfold balanced in *.
    destruct Hstep as
      [s1 _|s1 now objs _|s1 _ _|s1 _ _|s1 now _ _
      |s1 i Hi _|s1 i Hi _|s1 i j q Hi Hget|s1 i Hi _|s1 i j Hi]; simpl.
    - done.
    - by apply deliver_owed.
    - done.
    - done.
    - done.
    - pose proof (in_flight_insert _ i _ Returned Hi). simpl in *. lia.
    - pose proof (in_flight_insert _ i _ InGet Hi). simpl in *. lia.
    - pose proof (in_flight_insert _ i _ (Processing j) Hi) as Hins.
      unfold queue_get in Hget.
      destruct (items (jobs (app s1))) as [|j' rest] eqn:E; [done|].
      injection Hget as <- <-. simpl in *. lia.
    - pose proof (in_flight_insert _ i _ AtLoopTest Hi). simpl in *. lia.
    - pose proof (in_flight_insert _ i _ AtLoopTest Hi) as Hins.
      unfold queue_after_task_done, task_done. simpl in Hins.
      destruct (unfinished_tasks (jobs (app s1))) as [|n] eqn:E; simpl; lia. }
  split; [done|]. unfold balanced in Hbal'. split.
  - intros i job Hi.
    pose proof (in_flight_insert _ i _ AtLoopTest Hi) as Hins. simpl in Hins.
    unfold task_done.
    destruct (unfinished_tasks (jobs (app s'))) as [|n]; [lia | by eexists].
  - intros Hzero. rewrite Hzero in Hbal'.
    destruct (items (jobs (app s'))); simpl in *; [split; [done | lia] | lia].
Qed.

Lemma unfinished_tasks_balance_witness :
  let s' := with_app (feed (Frame 0 [JDict sample_event])) initial_system in
  balanced s' ∧
  (∀ i job, workers s' !! i = Some (Processing job) →
            ∃ q, task_done (jobs (app s')) = inr q) ∧
  (unfinished_tasks (jobs (app s')) = 0%nat →
   items (jobs (app s')) = [] ∧ in_flight (workers s') = 0%nat).
Proof.
  intros s'.
  apply (unfinished_tasks_balance store out_root api_url initial_system s').
  - reflexivity.
  - apply rtc_once. by apply (step_frame _ _ _ _ 0%Q [JDict sample_event]).
Defined.

(** ** One frame, several events *)

Lemma deliver_app (now : Q) (evs1 evs2 : list pydict) (a : App) :
  deliver now (evs1 ++ evs2) a =
  match deliver now evs1 a with
  | (Ok _, a1) => deliver now evs2 a1
  | (Raise e, a1) => (Raise e, a1)
  end.
Proof.
  revert a. induction evs1 as [|ev evs1 IH]; intros a; [done|].
  simpl. unfold mbind, M_bind.
  destruct (on_ws_event now ev a) as [[[]|e] a1]; [apply IH | done].
Qed.

(** An exception in the handler ends the frame: the events extracted before
    it have been handled, the events after it are never looked at. *)
Theorem frame_ends_at_first_exception (now : Q) (evs1 evs2 : list pydict)
    (ev : pydict) (a : App) (e : exn) :
  fst (deliver now evs1 a) = Ok () →
  fst (on_ws_event now ev (snd (deliver now evs1 a))) = Raise e →
  deliver now (evs1 ++ ev :: evs2) a
  = (Raise e, snd (on_ws_event now ev (snd (deliver now evs1 a)))).
Proof.
  intros Hbefore Hraise. rewrite deliver_app.
  destruct (deliver now evs1 a) as [[[]|e1] a1]; simpl in *; [|done].
  unfold mbind, M_bind.
  destruct (on_ws_event now ev a1) as [[[]|e2] a2]; simpl in *; [done|].
  by injection Hraise as ->.
Qed.

Lemma frame_ends_at_first_exception_witness :
  deliver 0 ([sample_event] ++ overflowing_event :: [sri_event]) (App_init allowlist)
  = (Raise OverflowError,
     snd (on_ws_event 0 overflowing_event
            (snd (deliver 0 [sample_event] (App_init allowlist))))).
Proof.
  apply (frame_ends_at_first_exception 0 [sample_event] [sri_event]
           overflowing_event (App_init allowlist) OverflowError).
  - vm_compute. reflexivity.
  - vm_compute. reflexivity.
Defined.

(** ** The end of the reconnect loop *)

Lemma feed_keeps_stop (it : feed_item) (a : App) :
  stop_event a = true → stop_event (feed it a) = true.
Proof.
  intros Hstop. destruct it as [now objs|]; [|done].
  simpl. unfold _on_message. by rewrite deliver_stop.
Qed.

Lemma feed_signal_stops (its : list feed_item) (a : App) :
  Signal ∈ its → stop_event (foldl (λ st it, feed it st) a its) = true.
Proof.
  revert a. induction its as [|it its IH]; intros a Hin.
  - by apply elem_of_nil in Hin.
  - simpl. apply elem_of_cons in Hin as [<-|Hin]; [|by apply IH].
    clear IH. generalize (feed Signal a) (eq_refl : stop_event (feed Signal a) = true).
    induction its as [|it' its IH]; intros a' Ha'; [done|].
    simpl. apply IH. by apply feed_keeps_stop.
Qed.

(** Once a termination signal has been handled during a connection, the
    listener never sleeps or connects again: the loop sleeps once after each
    connection before that one, and what would have arrived on later
    connections plays no part. *)
Theorem no_reconnect_after_signal (pre post : list session) (s : session) (a : App) :
  stop_event a = false →
  Forall quiet pre →
  Signal ∈ arrivals s →
  run_forever (pre ++ s :: post) a = run_forever (pre ++ [s]) a ∧
  length (fst (run_forever (pre ++ s :: post) a)) = length pre ∧
  stop_event (snd (run_forever (pre ++ s :: post) a)) = true.
Proof.
  unfold run_forever. generalize BACKOFF_MIN as backoff.
  intros backoff Hstop Hq Hsig. revert backoff a Hstop.
  induction pre as [|p pre IH]; intros backoff a Hstop.
  - simpl. rewrite Hstop.
    set (a1 := foldl _ a (arrivals s)).
    assert (stop_event a1 = true) as H1 by (by apply feed_signal_stops).
    assert (stop_event (match raised s with
                        | Some e => add_log (LogRunForeverException e) a1
                        | None => a1
                        end) = true) as H2 by (by destruct (raised s)).
    rewrite H2. by repeat split.
  - apply Forall_cons in Hq as [Hp Hq].
    simpl. rewrite Hstop.
    set (a1 := foldl _ a (arrivals p)).
    assert (stop_event a1 = false) as H1.
    { unfold a1. by rewrite feed_quiet_stop. }
    set (a2 := match raised p with Some e => _ | None => a1 end).
    assert (stop_event a2 = false) as H2 by (unfold a2; by destruct (raised p)).
    rewrite H2.
    destruct (IH Hq (Qmin (backoff * 2) BACKOFF_MAX)
                (add_log (LogReconnecting backoff) a2) H2) as (Heq & Hlen & Hst).
    rewrite Heq.
    destruct (reconnect_loop _ (pre ++ [s]) _) as [sleeps a4] eqn:E.
    rewrite Heq in Hlen, Hst. simpl in *. by rewrite Hlen.
Qed.

Lemma no_reconnect_after_signal_witness :
  let s := mkSession [Frame 0 [JDict sample_event]; Signal] None in
  let pre := [dropped_connection; dropped_connection] in
  let a := App_init allowlist in
  run_forever (pre ++ s :: [dropped_connection]) a = run_forever (pre ++ [s]) a ∧
  length (fst (run_forever (pre ++ s :: [dropped_connection]) a)) = length pre ∧
  stop_event (snd (run_forever (pre ++ s :: [dropped_connection]) a)) = true.
Proof.
  intros s pre a.
  apply (no_reconnect_after_signal pre [dropped_connection] s a).
  - reflexivity.
  - repeat constructor; unfold quiet; simpl; apply not_elem_of_nil.
  - simpl. set_solver.
Defined.

(** ** What cleaning a key amounts to *)

(** [ensure_relative_path] is the key split at its slashes, minus the
    empty, ["."] and [".."] pieces: passing through [Path] and back changes
    nothing else, and the result is always relative. *)
Theorem ensure_relative_path_segments (key : string) :
  ensure_relative_path key = mkPath false (key_segments key) ∧
  Forall clean (key_segments key).
Proof. split; [apply ensure_relative_path_unfold | apply key_segments_clean]. Qed.

Lemma split_slash_nonempty (s : string) : split_slash s ≠ [].
Proof.
  destruct s as [|c s]; [done|]. simpl.
  destruct (is_slash c); [done|]. by destruct (split_slash s).
Qed.

Lemma split_slash_join (s t : string) :
  split_slash (s +:+ "/" +:+ t) = split_slash s ++ split_slash t.
Proof.
  induction s as [|c s IH]; [done|].
  rewrite app_cons. simpl. rewrite IH.
  destruct (is_slash c); [done|].
  pose proof (split_slash_nonempty s).
  by destruct (split_slash s).
Qed.

(** Cleaning goes segment by segment: the cleaned path of two keys joined
    by a slash is the cleaned path of the first followed by that of the
    second. In particular a [".."] is dropped where it stands and never
    removes the component before it. *)
Theorem ensure_relative_path_join (k1 k2 : string) :
  parts (ensure_relative_path (k1 +:+ "/" +:+ k2))
  = parts (ensure_relative_path k1) ++ parts (ensure_relative_path k2) ∧
  parts (ensure_relative_path (k1 +:+ "/" +:+ ".." +:+ "/" +:+ k2))
  = parts (ensure_relative_path k1) ++ parts (ensure_relative_path k2).
Proof.
  rewrite !ensure_relative_path_unfold. simpl. unfold key_segments.
  rewrite !split_slash_join, !filter_app. split; [done|].
  by f_equal.
Qed.

(** Cleaning is idempotent: printing a cleaned path and cleaning the text
    again gives the same path. *)
Theorem ensure_relative_path_idempotent (key : string) :
  ensure_relative_path (as_posix (ensure_relative_path key))
  = ensure_relative_path key.
Proof.
  rewrite (ensure_relative_path_unfold key).
  pose proof (key_segments_clean key) as Hclean.
  destruct (key_segments key) as [|seg rest] eqn:Hsegs; [done|].
  rewrite ensure_relative_path_unfold. f_equal.
  change (as_posix (mkPath false (seg :: rest)))
    with (String.concat "/" (seg :: rest)).
  unfold key_segments.
  rewrite split_slash_concat; [|done|].
  - apply filter_all. eapply Forall_impl; [exact Hclean|].
    intros s (H1 & H2 & H3 & _). set_solver.
  - eapply Forall_impl; [exact Hclean|]. by intros s (_ & _ & _ & ?).
Qed.

(** ** The worker's failure paths *)

(** Without a usable lookup answer the job fails before anything else is
    done: whatever went wrong (the call, the status, the body, a missing or
    empty key or URL, a key that is not a string), an exception is raised and
    the only trace is the POST itself; no GET, no file-system call, no
    change to any file, and no log record from the worker. *)
Theorem lookup_failure_touches_nothing (remote : Remote) (output_dir : Path)
    (endpoint : string) (job : Job) (w : World) :
  ¬ usable_answer (api_post remote endpoint (productType job) (productDate job)) →
  ∃ e : exn,
    process_job remote output_dir endpoint job w
    = (Raise e, add_request (ReqPost endpoint (productType job) (productDate job)) w).
Proof.
  intros Hbad. unfold process_job.
  destruct (api_post remote endpoint (productType job) (productDate job))
    as [e|[] [v|]] eqn:Hpost;
    unfold mbind, M_bind, modify, mret, M_ret, raise; simpl; try by eexists.
  destruct v as [| | | | | |d]; simpl; try by eexists.
  destruct (truthy (dict_get d "key")) eqn:Hk; simpl; [|by eexists].
  destruct (truthy (dict_get d "url")) eqn:Hu; simpl; [|by eexists].
  destruct (dict_get d "key") as [| | | |k| |] eqn:Hkey; simpl; try by eexists.
  exfalso. apply Hbad. exists d, k. repeat split; try done.
  intros ->. simpl in Hk. done.
Qed.

Definition silent_lookup : Remote :=
  mkRemote (λ _ _ _, PostResponse true (Some (JDict (<["url" := JStr "https://store/object"]> ∅))))
           (λ _, GetFailed ConnectionError).

Lemma lookup_failure_touches_nothing_witness :
  ∃ e : exn,
    process_job silent_lookup out_root api_url vmi_job world_with_root
    = (Raise e, add_request (ReqPost api_url (productType vmi_job) (productDate vmi_job))
                  world_with_root).
Proof.
  apply (lookup_failure_touches_nothing silent_lookup out_root api_url vmi_job
           world_with_root).
  intros (d & k & Hr & Hk & _). injection Hr as <-. vm_compute in Hk. discriminate.
Defined.

(** When the GET does not deliver a body (the call fails, or the status is
    an error), [chunked_download] raises having done nothing but create the
    missing parent directories: no file is opened, written or renamed, and
    every path at or below the destination's level is as it was. *)
Theorem failed_get_writes_no_file (remote : Remote) (url : json) (dest : abspath)
    (w : World) :
  (∀ chunks broken, http_get remote url ≠ GetResponse true chunks broken) →
  ∃ (e : exn) (w' : World),
    chunked_download remote url dest w = (Raise e, w') ∧
    (∃ made, syscalls w' = syscalls w ++ map OpMkdir made) ∧
    (∀ p, (length (path_parent dest) < length p)%nat → nodes w' !! p = nodes w !! p).
Proof.
  intros Hno. unfold chunked_download, mbind, M_bind.
  destruct (mkdir_parents (path_parent dest) w) as [r w1] eqn:Hmk.
  destruct (mkdir_parents_spec _ _ _ _ Hmk) as (_ & Hmade & Hframe & _).
  destruct r as [[]|e]; [|by exists e, w1].
  destruct (with_suffix dest _) as [e|tmp]; simpl; [by exists e, w1|].
  unfold modify, raise.
  destruct (http_get remote url) as [e|[] chunks broken] eqn:Hget.
  - by eexists e, _.
  - by destruct (Hno chunks broken).
  - by eexists HTTPError, _.
Qed.

Definition refusing_store : Remote :=
  fixed_remote "sri/b.grib" (GetResponse false [] None).

Lemma failed_get_writes_no_file_witness :
  ∃ (e : exn) (w' : World),
    chunked_download refusing_store (JStr "https://store/object") sri_dest world_with_root
    = (Raise e, w') ∧
    (∃ made, syscalls w' = syscalls world_with_root ++ map OpMkdir made) ∧
    (∀ p, (length (path_parent sri_dest) < length p)%nat →
          nodes w' !! p = nodes world_with_root !! p).
Proof.
  apply (failed_get_writes_no_file refusing_store (JStr "https://store/object")
           sri_dest world_with_root).
  intros chunks broken H. discriminate.
Defined.

(** ** A download, and the same job again *)

Lemma mkdir_from_frame (f : World → World) (todo : list string) :
  (∀ w, nodes (f w) = nodes w) →
  (∀ op g w, add_syscall op (set_nodes g (f w)) = f (add_syscall op (set_nodes g w))) →
  ∀ (base : abspath) (w : World),
    mkdir_from base todo (f w)
    = (fst (mkdir_from base todo w), f (snd (mkdir_from base todo w))).
Proof.
  intros Hnodes Hcomm. induction todo as [|seg todo IH]; intros base w; [done|].
  simpl. rewrite Hnodes.
  destruct (NAME_MAX <? String.length seg)%nat; [done|].
  destruct (node_at (nodes w) (base ++ [seg])) as [[data|]|]; [done|apply IH|].
  rewrite Hcomm. apply IH.
Qed.

Lemma mkdir_parents_frame (f : World → World) (p : abspath) (w : World) :
  (∀ w, nodes (f w) = nodes w) →
  (∀ op g w, add_syscall op (set_nodes g (f w)) = f (add_syscall op (set_nodes g w))) →
  mkdir_parents p (f w)
  = (fst (mkdir_parents p w), f (snd (mkdir_parents p w))).
Proof.
  intros Hnodes Hcomm. unfold mkdir_parents.
  destruct (existsb has_nul p); [done|].
  destruct (PATH_MAX <=? String.length (abspath_str p))%nat; [done|].
  by apply mkdir_from_frame.
Qed.

(** A job whose destination is not there yet, and whose temporary name the
    system accepts and is not a symbolic link, is downloaded: the file
    appears under its final name with exactly the bytes received, the
    temporary file is gone, one POST and one GET were made. Processing the
    same job again then skips the transfer, provided at least one byte was
    received. *)
Theorem download_then_skip (remote : Remote) (output_dir : Path) (endpoint : string)
    (job : Job) (w : World) (d : pydict) (key : string) (dest : abspath)
    (chunks : list string) :
  api_post remote endpoint (productType job) (productDate job)
    = PostResponse true (Some (JDict d)) →
  dict_get d "key" = JStr key →
  key ≠ "" →
  truthy (dict_get d "url") = true →
  fst (safe_join output_dir (ensure_relative_path key) w) = Ok dest →
  path_name dest ≠ "" →
  refusal (part_file dest) = None →
  links w !! dest = None →
  links w !! part_file dest = None →
  node_at (nodes w) dest = None →
  node_at (nodes w) (part_file dest) ≠ Some Dir →
  fst (mkdir_parents (path_parent dest) w) = Ok () →
  http_get remote (dict_get d "url") = GetResponse true chunks None →
  let received := foldr String.append "" chunks in
  let post := ReqPost endpoint (productType job) (productDate job) in
  ∃ w' : World,
    process_job remote output_dir endpoint job w = (Ok (), w') ∧
    nodes w' !! dest = Some (File received) ∧
    nodes w' !! part_file dest = None ∧
    requests w' = requests w ++ [post; ReqGet (dict_get d "url")] ∧
    wlog w' = wlog w ++ [LogDownloading dest; LogDone dest] ∧
    (received ≠ "" →
     process_job remote output_dir endpoint job w'
     = (Ok (), add_wlog (LogSkipExisting dest) (add_request post w'))).
Proof.
  intros Hpost Hk Hne Hurl Hjoin Hname Hlong Hdlink Hplink Habsent Hnodir Hmk Hget
    received post.
  pose proof (refusal_dest dest Hname Hlong) as Hshort.
  pose proof Hshort as [Hn2 Hl2]%refusal_None.
  pose proof Hlong as [Hn1 Hl1]%refusal_None.
  set (f := λ x, add_wlog (LogDownloading dest) (add_request post x)).
  set (w1 := snd (mkdir_parents (path_parent dest) w)).
  assert (mkdir_parents (path_parent dest) w = (Ok (), w1)) as Hmk0.
  { unfold w1. destruct (mkdir_parents (path_parent dest) w) as [r x].
    simpl in *. by subst r. }
  destruct (mkdir_parents_spec _ _ _ _ Hmk0) as (Hsame & _ & Hframe & _).
  destruct Hsame as (Hcwd & Hlinks & Hdsz & Hreq & Hlog).
  assert (∀ ns, node_at ns dest = ns !! dest) as Hat
    by (intros ns; destruct dest; [by destruct Hname | done]).
  pose proof (part_file_neq dest Hname) as Hneq.
  assert (∀ p, length p = length dest → nodes w1 !! p = nodes w !! p) as Hlevel.
  { intros p Hp. apply Hframe. rewrite Hp.
    rewrite (dest_split dest Hname) at 2. rewrite length_app. simpl. lia. }
  assert (length (part_file dest) = length dest) as Hlen.
  { unfold part_file. rewrite (dest_split dest Hname) at 3.
    by rewrite !length_app. }
  assert (mkdir_parents (path_parent dest) (f w) = (Ok (), f w1)) as Hmkf.
  { rewrite (mkdir_parents_frame f) by done. by rewrite Hmk0. }
  set (w4 := after_writes (part_file dest) "" chunks
               (add_syscall (OpOpenWb (part_file dest))
                  (set_nodes (insert (part_file dest) (File ""))
                     (add_request (ReqGet (dict_get d "url")) (f w1))))).
  assert (chunked_download remote (dict_get d "url") dest (f w)
          = replace (part_file dest) dest w4) as Hdl.
  { rewrite (chunked_download_streams remote _ dest (f w) (f w1) chunks None);
      try done.
    change (nodes (f w1)) with (nodes w1).
    rewrite part_file_lookup, Hlevel, <- part_file_lookup; done. }
  assert (nodes w4 !! part_file dest = Some (File received)) as Htmp4.
  { unfold w4, after_writes. simpl. by rewrite lookup_insert_eq. }
  assert (nodes w4 !! dest = None) as Hdest4.
  { unfold w4, after_writes. simpl. rewrite !lookup_insert_ne by done.
    rewrite Hlevel by done. by rewrite <- Hat. }
  assert (links w4 = links w) as Hlinks4 by done.
  set (w5 := add_syscall (OpReplace (part_file dest) dest)
               (set_links (delete dest)
                  (set_nodes (λ ns, <[dest := File received]> (delete (part_file dest) ns))
                     w4))).
  assert (replace (part_file dest) dest w4 = (Ok (), w5)) as Hrep.
  { unfold replace. rewrite Hn1, Hn2, Hl1, Hl2, Hlinks4, Hplink. cbn [orb].
    by rewrite Htmp4, Hat, Hdest4. }
  assert (links w5 = links w) as Hlinks5.
  { unfold w5. simpl. rewrite Hlinks. by apply delete_id. }
  set (w' := add_wlog (LogDone dest) w5).
  assert (process_job remote output_dir endpoint job w = (Ok (), w')) as Hrun.
  { assert (String.eqb key "" = false) as Hkt by (by apply String.eqb_neq).
    unfold process_job. rewrite Hpost.
    unfold mbind, M_bind, modify, mret, M_ret, gets, raise. simpl.
    rewrite !Hk. simpl. rewrite Hkt, Hurl. simpl. fold post.
    rewrite (safe_join_unfold output_dir (ensure_relative_path key) (add_request post w)).
    rewrite (safe_join_same_namespace _ _ (add_request post w) w) by done.
    rewrite Hjoin.
    assert (path_exists dest (add_request post w) = (Ok false, add_request post w))
      as ->.
    { unfold path_exists. rewrite Hshort. simpl. rewrite Habsent.
      rewrite bool_decide_eq_false_2; [done|]. by intros [? ?]. }
    simpl. fold (f w). by rewrite Hdl, Hrep. }
  exists w'. split; [exact Hrun|].
  assert (nodes w' !! dest = Some (File received)) as Hfinal.
  { unfold w', w5. simpl. by rewrite lookup_insert_eq. }
  repeat split.
  - exact Hfinal.
  - unfold w', w5. simpl. by rewrite lookup_insert_ne, lookup_delete_eq.
  - unfold w', w5, w4, after_writes, f. simpl. rewrite Hreq.
    by rewrite <- !app_assoc.
  - unfold w', w5, w4, after_writes, f. simpl. rewrite Hlog.
    by rewrite <- !app_assoc.
  - intros Hbytes.
    apply (process_job_skips remote output_dir endpoint job w' d key dest
             (Z.of_nat (String.length received))); try done.
    + rewrite <- Hjoin. apply safe_join_same_namespace.
      split; [|exact Hlinks5]. unfold w', w5, w4, after_writes, f. simpl.
      by rewrite Hcwd.
    + unfold path_exists. rewrite Hshort, Hat, Hfinal.
      rewrite bool_decide_eq_true_2; [done | by eexists].
    + unfold st_size. by rewrite Hshort, Hat, Hfinal.
    + destruct received; [done | simpl; lia].
Qed.

Lemma download_then_skip_witness :
  let received := foldr String.append "" ["GR"; "IB"] in
  let post := ReqPost api_url (productType sri_job) (productDate sri_job) in
  ∃ w' : World,
    process_job complete_store out_root api_url sri_job world_with_root = (Ok (), w') ∧
    nodes w' !! sri_dest = Some (File received) ∧
    nodes w' !! part_file sri_dest = None ∧
    requests w' = requests world_with_root
                  ++ [post; ReqGet (dict_get store_answer "url")] ∧
    wlog w' = wlog world_with_root ++ [LogDownloading sri_dest; LogDone sri_dest] ∧
    (received ≠ "" →
     process_job complete_store out_root api_url sri_job w'
     = (Ok (), add_wlog (LogSkipExisting sri_dest) (add_request post w'))).
Proof.
  apply (download_then_skip complete_store out_root api_url sri_job world_with_root
           store_answer "sri/b.grib" sri_dest ["GR"; "IB"]).
  - reflexivity.
  - reflexivity.
  - intros H. discriminate.
  - reflexivity.
  - vm_compute. reflexivity.
  - vm_compute. intros H. discriminate.
  - vm_compute. reflexivity.
  - reflexivity.
  - reflexivity.
  - vm_compute. reflexivity.
  - vm_compute. intros H. discriminate.
  - vm_compute. reflexivity.
  - reflexivity.
Defined.

(** ** The handler, event by event *)

Lemma is_pyspace_upper_char (c : ascii) : is_pyspace (upper_char c) = is_pyspace c.
Proof. destruct c as [[] [] [] [] [] [] [] []]; reflexivity. Qed.

Lemma upper_lstrip (s : string) :
  upper (lstrip_with is_pyspace s) = lstrip_with is_pyspace (upper s).
Proof.
  induction s as [|c s IH]; [done|]. simpl.
  rewrite is_pyspace_upper_char. by destruct (is_pyspace c).
Qed.

Lemma upper_rev_app (s t : string) :
  upper (String.rev_app s t) = String.rev_app (upper s) (upper t).
Proof.
  revert t. induction s as [|c s IH]; intros t; [done|]. simpl. by rewrite IH.
Qed.

(** Trimming and upper-casing commute, so the allowlist (trimmed, then
    upper-cased) and the events (upper-cased, then trimmed) are normalized
    alike. *)
Lemma upper_strip (s : string) : strip (upper s) = upper (strip s).
Proof.
  unfold strip, String.rev.
  by rewrite <- upper_lstrip, <- (upper_rev_app _ ""), <- upper_lstrip,
             <- (upper_rev_app _ "").
Qed.

Lemma upper_empty (s : string) : upper s = "" → s = "".
Proof. by destruct s. Qed.

Lemma strip_empty : strip "" = "".
Proof. reflexivity. Qed.

Lemma elem_of_normalize_products (ps : list string) (p : string) :
  p ∈ ps → strip p ≠ "" → upper (strip p) ∈ normalize_products ps.
Proof.
  intros Hin Hne. unfold normalize_products.
  apply elem_of_list_to_set, list_elem_of_fmap. exists p. split; [done|].
  by apply list_elem_of_filter.
Qed.

(** An event whose product type is spelled as an entry of the configured
    allowlist, in any case and with any surrounding blanks the entry has, and
    whose [time] is an integer, is accepted with the normalized type and that
    time. The entry is ASCII text, where [upper] and [strip] are Python's. *)
Theorem allowlisted_spelling_is_accepted (ps : list string) (p : string) (n : Z)
    (ev : pydict) :
  ascii_only p = true →
  p ∈ ps →
  strip p ≠ "" →
  ev !! "productType" = Some (JStr p) →
  ev !! "time" = Some (JInt n) →
  classify (normalize_products ps) ev = inr (Accept (mkJob (upper (strip p)) n)).
Proof.
  intros _ Hin Hne Hp Ht. unfold classify, dict_get. rewrite Hp, Ht. simpl.
  assert (p ≠ "") as Hp0 by (intros ->; by apply Hne).
  unfold py_or at 2. simpl.
  assert (String.eqb p "" = false) as -> by (by apply String.eqb_neq).
  simpl. unfold py_or. simpl.
  assert (String.eqb p "" = false) as -> by (by apply String.eqb_neq).
  simpl. rewrite upper_strip.
  rewrite bool_decide_eq_false_2 by (intros H%upper_empty; done).
  simpl. rewrite bool_decide_eq_false_2; [done|].
  intros Hnot. apply Hnot. by apply elem_of_normalize_products.
Qed.

Lemma allowlisted_spelling_is_accepted_witness :
  classify (normalize_products [" vmi "; "Sri"])
    (<["productType" := JStr " vmi "]> (<["time" := JInt 5]> ∅))
  = inr (Accept (mkJob (upper (strip " vmi ")) 5)).
Proof.
  apply (allowlisted_spelling_is_accepted [" vmi "; "Sri"] " vmi " 5).
  - reflexivity.
  - set_solver.
  - vm_compute. intros H. discriminate.
  - reflexivity.
  - reflexivity.
Defined.

(** A product type that is present, true in Python's sense and not a
    string (a number, a list, an object, [true]) makes the handler raise
    [AttributeError]; nothing is recorded, queued or logged. *)
Theorem non_string_product_type_raises (now : Q) (ev : pydict) (v : json) (a : App) :
  ev !! "productType" = Some v →
  truthy v = true →
  (∀ s, v ≠ JStr s) →
  on_ws_event now ev a = (Raise AttributeError, a).
Proof.
  intros Hv Ht Hns. rewrite on_ws_event_unfold.
  unfold classify, dict_get at 1. rewrite Hv. simpl.
  unfold py_or at 2. rewrite Ht. unfold py_or. rewrite Ht.
  destruct v; try done. by destruct (Hns s).
Qed.

Lemma non_string_product_type_raises_witness :
  on_ws_event 0 (<["productType" := JInt 7]> (<["time" := JInt 5]> ∅))
    (App_init allowlist)
  = (Raise AttributeError, App_init allowlist).
Proof.
  apply (non_string_product_type_raises 0 _ (JInt 7)).
  - reflexivity.
  - reflexivity.
  - intros s H. discriminate.
Defined.


Definition far_future_event : pydict :=
  <["productType" := JStr "VMI"]> (<["time" := JInt 1000000000000000000]> ∅).


(** [classify] for an event that carries an allowlisted product type. *)
Lemma classify_typed (allow : gset string) (ev : pydict) (p : string) :
  ev !! "productType" = Some (JStr p) →
  strip (upper p) ≠ "" →
  strip (upper p) ∈ allow →
  classify allow ev =
  let epoch_ms :=
    match dict_get ev "time" with
    | JNull => py_or (dict_get ev "productDate") (dict_get ev "timestamp")
    | t => t
    end in
  if negb (is_int_or_float epoch_ms) then inr (Ignore (LogIgnoringEvent ev))
  else match py_int epoch_ms with
       | inl e => inl e
       | inr n => inr (Accept (mkJob (strip (upper p)) n))
       end.
Proof.
  intros Hp Hne Hin.
  assert (p ≠ "") as Hp0 by (intros ->; by apply Hne).
  assert (String.eqb p "" = false) as Hpe by (by apply String.eqb_neq).
  unfold classify. unfold dict_get at 1. rewrite Hp. simpl.
  unfold py_or at 2. simpl. rewrite Hpe. simpl.
  unfold py_or at 1. simpl. rewrite Hpe. simpl.
  rewrite bool_decide_eq_false_2 by done. simpl.
  destruct (negb (is_int_or_float _)); [done|].
  rewrite bool_decide_eq_false_2; [done|]. intros Hnot. by apply Hnot.
Qed.

(** How the timestamp is chosen for an event with an allowlisted product
    type. [time] is used whenever it is present and not null, zero
    included; a JSON boolean passes as a number, [true] as 1 and [false] as
    0; and without [time] a [productDate] that is false in Python's sense
    (zero, for one) is passed over in favour of [timestamp]. *)
Theorem timestamp_selection (allow : gset string) (ev : pydict) (p : string) :
  ev !! "productType" = Some (JStr p) →
  strip (upper p) ≠ "" →
  strip (upper p) ∈ allow →
  (∀ n, ev !! "time" = Some (JInt n) →
        classify allow ev = inr (Accept (mkJob (strip (upper p)) n))) ∧
  (∀ b, ev !! "time" = Some (JBool b) →
        classify allow ev = inr (Accept (mkJob (strip (upper p)) (Z.b2z b)))) ∧
  (∀ v n, ev !! "time" = None →
          ev !! "productDate" = Some v → truthy v = false →
          ev !! "timestamp" = Some (JInt n) →
          classify allow ev = inr (Accept (mkJob (strip (upper p)) n))).
Proof.
  intros Hp Hne Hin. repeat split.
  - intros n Ht. rewrite (classify_typed allow ev p) by done.
    unfold dict_get at 1. by rewrite Ht.
  - intros b Ht. rewrite (classify_typed allow ev p) by done.
    unfold dict_get at 1. by rewrite Ht.
  - intros v n Ht Hd Hv Hs. rewrite (classify_typed allow ev p) by done.
    unfold dict_get. rewrite Ht, Hd, Hs. simpl.
    unfold py_or. by rewrite Hv.
Qed.

Lemma timestamp_selection_witness :
  let ev := <["productType" := JStr "VMI"]>
              (<["productDate" := JInt 0]> (<["timestamp" := JInt 9]> ∅)) in
  (∀ n, ev !! "time" = Some (JInt n) →
        classify (App_init allowlist).(products) ev
        = inr (Accept (mkJob (strip (upper "VMI")) n))) ∧
  (∀ b, ev !! "time" = Some (JBool b) →
        classify (App_init allowlist).(products) ev
        = inr (Accept (mkJob (strip (upper "VMI")) (Z.b2z b)))) ∧
  (∀ v n, ev !! "time" = None →
          ev !! "productDate" = Some v → truthy v = false →
          ev !! "timestamp" = Some (JInt n) →
          classify (App_init allowlist).(products) ev
          = inr (Accept (mkJob (strip (upper "VMI")) n))).
Proof.
  intros ev.
  apply (timestamp_selection (App_init allowlist).(products) ev "VMI").
  - reflexivity.
  - vm_compute. intros H. discriminate.
  - vm_compute. set_solver.
Defined.

(** ** Identity keys *)

Lemma pretty_N_char_colon_free (y : N) :
  negb (bool_decide (pretty_N_char y = ":"%char)) = true.
Proof. unfold pretty_N_char. by repeat case_match. Qed.

Lemma pretty_N_go_colon_free (x : N) :
  ∀ s, colon_free s = true → colon_free (pretty_N_go x s) = true.
Proof.
  induction (N.lt_wf_0 x) as [x _ IH]. intros s Hs.
  destruct (decide (x = 0)%N) as [->|Hx]; [by rewrite pretty_N_go_0|].
  rewrite pretty_N_go_step by lia. apply IH.
  - apply N.div_lt; lia.
  - simpl. by rewrite pretty_N_char_colon_free.
Qed.

Lemma pretty_Z_colon_free (z : Z) : colon_free (pretty z) = true.
Proof.
  assert (∀ p : positive, colon_free (pretty p) = true) as Hpos.
  { intros p. unfold pretty, pretty_positive, pretty, pretty_N.
    case_decide; [done|]. by apply pretty_N_go_colon_free. }
  destruct z as [|p|p]; [done|apply Hpos|].
  unfold pretty, pretty_Z. rewrite app_cons. simpl. apply Hpos.
Qed.

Lemma colon_free_app_colon (s t : string) : colon_free (s +:+ ":" +:+ t) = false.
Proof.
  induction s as [|c s IH]; [done|].
  rewrite app_cons. simpl. rewrite IH. apply andb_false_r.
Qed.

Lemma colon_split (a b d1 d2 : string) :
  colon_free d1 = true → colon_free d2 = true →
  a +:+ ":" +:+ d1 = b +:+ ":" +:+ d2 → a = b ∧ d1 = d2.
Proof.
  intros H1 H2. revert b.
  induction a as [|c a IH]; intros [|c' b] Heq.
  - change (String ":" d1 = String ":" d2) in Heq. by injection Heq.
  - change (String ":" d1 = String c' (b +:+ ":" +:+ d2)) in Heq.
    injection Heq as _ Heq.
    rewrite Heq, colon_free_app_colon in H1. done.
  - change (String c (a +:+ ":" +:+ d1) = String ":" d2) in Heq.
    injection Heq as _ Heq.
    rewrite <- Heq, colon_free_app_colon in H2. done.
  - change (String c (a +:+ ":" +:+ d1) = String c' (b +:+ ":" +:+ d2)) in Heq.
    injection Heq as -> Heq.
    destruct (IH b Heq) as [-> ->]. done.
Qed.

(** Identity keys do not collide: two jobs with the same key have the same
    product type and the same timestamp, whatever characters the product
    type holds. *)
Theorem job_key_inj (j1 j2 : Job) : job_key j1 = job_key j2 → j1 = j2.
Proof.
  destruct j1 as [t1 d1], j2 as [t2 d2]. unfold job_key. simpl. intros Heq.
  apply colon_split in Heq as [-> Hd]; try apply pretty_Z_colon_free.
  by apply pretty_Z_inj in Hd as ->.
Qed.

Lemma job_key_inj_witness : mkJob (upper "a:1") (1 + 1) = mkJob "A:1" 2.
Proof.
  apply (job_key_inj (mkJob (upper "a:1") (1 + 1)) (mkJob "A:1" 2)).
  vm_compute. reflexivity.
Defined.

(** ** The queue is first in, first out *)

Lemma queue_get_oldest (q q' : Queue) (job : Job) :
  queue_get q = inr (job, q') →
  items q = job :: items q' ∧ accepted q' = accepted q.
Proof.
  unfold queue_get. destruct (items q) as [|j rest]; [done|].
  by intros [= <- <-].
Qed.

(** Whatever is presented, swept, taken or reported done: the jobs the
    queue has ever accepted, in the order of acceptance, are the jobs taken
    before, then the jobs handed to workers since, in the order they were
    handed out, then the jobs still queued. So no job is lost, duplicated
    or reordered inside the queue, and each [get] hands out the oldest job
    not yet taken. *)
Theorem queue_is_fifo (xs : list action) (a : App) (taken : list Job) :
  accepted (jobs a) = taken ++ items (jobs a) →
  accepted (jobs (run_actions xs a))
  = taken ++ handed_out xs a ++ items (jobs (run_actions xs a)).
Proof.
  revert a taken. induction xs as [|x xs IH]; intros a taken Htaken; [done|].
  unfold run_actions in *. destruct x as [now ev|now| |]; cbn [foldl handed_out].
  - apply IH. cbn [act]. rewrite on_ws_event_unfold.
    destruct (classify (products a) ev) as [e|[why|job]]; simpl; try done.
    case_bool_decide; simpl; [done|].
    unfold put_nowait.
    destruct (MAXSIZE <=? length (items (jobs a)))%nat; simpl; [done|].
    destruct (utcfromtimestamp_ok (productDate job)); simpl;
      by rewrite Htaken, app_assoc.
  - by apply IH.
  - destruct (queue_get (jobs a)) as [e|[j q]] eqn:Hget.
    + apply IH. cbn [act]. by rewrite Hget.
    + change (taken ++ (j :: handed_out xs (act WorkerGet a)) ++ ?rest)
        with (taken ++ [j] ++ handed_out xs (act WorkerGet a) ++ rest).
      rewrite (app_assoc taken [j]). apply IH. cbn [act]. rewrite Hget.
      apply queue_get_oldest in Hget as [Hitems Hacc]. simpl.
      by rewrite Hacc, Htaken, Hitems, <- app_assoc.
  - apply IH. cbn [act]. unfold queue_after_task_done, task_done.
    by destruct (unfinished_tasks (jobs a)).
Qed.

Lemma queue_is_fifo_witness :
  accepted (jobs (run_actions [Present 0 sample_event; Present 1 sri_event; WorkerGet]
                    (App_init allowlist)))
  = [] ++ handed_out [Present 0 sample_event; Present 1 sri_event; WorkerGet]
            (App_init allowlist)
       ++ items (jobs (run_actions [Present 0 sample_event; Present 1 sri_event; WorkerGet]
                         (App_init allowlist))).
Proof.
  apply (queue_is_fifo [Present 0 sample_event; Present 1 sri_event; WorkerGet]
           (App_init allowlist) []).
  reflexivity.
Defined.

(** ** The text of a frame *)

Lemma rev_app_app (s t u : string) :
  String.rev_app (s +:+ t) u = String.rev_app t (String.rev_app s u).
Proof.
  revert u. induction s as [|c s IH]; intros u; [done|].
  rewrite app_cons. simpl. apply IH.
Qed.

Lemma rev_app_acc (s t : string) : String.rev_app s t = String.rev s +:+ t.
Proof.
  unfold String.rev. revert t. induction s as [|c s IH]; intros t; [done|].
  simpl. rewrite IH, (IH (String c "")). by rewrite app_assoc_str.
Qed.

Lemma rev_cons (c : ascii) (s : string) :
  String.rev (String c s) = String.rev s +:+ String c "".
Proof. unfold String.rev at 1. simpl. apply rev_app_acc. Qed.

Lemma rev_snoc (c : ascii) (s : string) :
  String.rev (s +:+ String c "") = String c (String.rev s).
Proof. unfold String.rev. by rewrite rev_app_app. Qed.

Lemma rev_involutive (s : string) : String.rev (String.rev s) = s.
Proof.
  induction s as [|c s IH]; [done|]. by rewrite rev_cons, rev_snoc, IH.
Qed.

Lemma lstrip_idempotent (s : string) :
  lstrip_with is_pyspace (lstrip_with is_pyspace s) = lstrip_with is_pyspace s.
Proof.
  induction s as [|c s IH]; [done|]. simpl.
  destruct (is_pyspace c) eqn:Hc; [done|]. simpl. by rewrite Hc.
Qed.

Lemma lstrip_snoc (s : string) (c : ascii) :
  is_pyspace c = false →
  lstrip_with is_pyspace (s +:+ String c "")
  = lstrip_with is_pyspace s +:+ String c "".
Proof.
  intros Hc. induction s as [|c' s IH].
  - change ("" +:+ String c "") with (String c ""). simpl. by rewrite Hc.
  - rewrite app_cons. simpl.
    destruct (is_pyspace c'); [exact IH | by rewrite app_cons].
Qed.

(** Trimming the end of a text that does not start with a blank gives a
    text that does not start with a blank. *)
Lemma rstrip_keeps_head (t : string) :
  lstrip_with is_pyspace t = t →
  lstrip_with is_pyspace (String.rev (lstrip_with is_pyspace (String.rev t)))
  = String.rev (lstrip_with is_pyspace (String.rev t)).
Proof.
  destruct t as [|c t]; [done|]. simpl.
  destruct (is_pyspace c) eqn:Hc.
  - intros Heq. apply (f_equal String.length) in Heq. exfalso.
    assert (∀ s, (String.length (lstrip_with is_pyspace s) <= String.length s)%nat)
      as Hle.
    { induction s as [|c' s IH]; [done|]. simpl.
      destruct (is_pyspace c'); simpl; lia. }
    specialize (Hle t). simpl in Heq. lia.
  - intros _. rewrite rev_cons, lstrip_snoc, rev_snoc by done.
    simpl. by rewrite Hc.
Qed.

Lemma strip_idempotent (s : string) : strip (strip s) = strip s.
Proof.
  unfold strip. set (t := lstrip_with is_pyspace s).
  rewrite (rstrip_keeps_head t) by apply lstrip_idempotent.
  by rewrite rev_involutive, lstrip_idempotent.
Qed.

(** What [_on_message] hands to the JSON parser: every chunk is non-empty
    and already trimmed; a blank frame gives no chunk; and a frame without a
    line feed, or one whose text starts with a bracket, is handed over whole
    rather than line by line. *)
Theorem message_chunks_are_trimmed (message : string) :
  (∀ chunk, chunk ∈ message_chunks message → chunk ≠ "" ∧ strip chunk = chunk) ∧
  (strip message = "" → message_chunks message = []) ∧
  (strip message ≠ "" →
   has_linefeed (strip message) = false ∨
   starts_with_bracket (strip message) = true →
   message_chunks message = [strip message]).
Proof.
  unfold message_chunks. split; [|split].
  - intros chunk. case_bool_decide as Hblank; [by intros ?%elem_of_nil|].
    destruct (has_linefeed _ && negb _).
    + intros (ln & -> & Hin)%list_elem_of_fmap.
      apply list_elem_of_filter in Hin as [Hne _].
      split; [done | apply strip_idempotent].
    + intros ->%list_elem_of_singleton.
      split; [done | apply strip_idempotent].
  - intros ->. done.
  - intros Hne Hwhole. rewrite bool_decide_eq_false_2 by done.
    assert (lstrip_with is_pyspace (strip message) = strip message) as ->.
    { unfold strip. apply rstrip_keeps_head, lstrip_idempotent. }
    destruct Hwhole as [-> | ->]; [done | by rewrite andb_false_r].
Qed.

Lemma message_chunks_are_trimmed_witness :
  message_chunks "   " = [] ∧
  message_chunks "  {}  " = [strip "  {}  "].
Proof.
  destruct (message_chunks_are_trimmed "   ") as (_ & Hblank & _).
  destruct (message_chunks_are_trimmed "  {}  ") as (_ & _ & Hwhole).
  split.
  - apply Hblank. reflexivity.
  - apply Hwhole; [vm_compute; intros H; discriminate | left; reflexivity].
Defined.

(** ** The stop event *)

(** The stop event is never cleared, and the main thread leaves the
    listener only with the event set: in every state it is still listening
    or the event is set. *)
Theorem stop_event_is_permanent (remote : Remote) (output_dir : Path)
    (api_endpoint : string) (s s' : System) :
  main s = Listening ∨ stop_event (app s) = true →
  reaches remote output_dir api_endpoint s s' →
  (stop_event (app s) = true → stop_event (app s') = true) ∧
  (main s' = Listening ∨ stop_event (app s') = true).
Proof.
  intros Hinit Hreach.
  induction Hreach as [|s1 s2 s3 Hstep _ IH]; [by split|].
  assert ((stop_event (app s1) = true → stop_event (app s2) = true) ∧
          (main s2 = Listening ∨ stop_event (app s2) = true)) as [Hkeep Hinv].
  { destruct Hstep as
      [s1 _|s1 now objs Hl|s1 _ _|s1 Hj _|s1 now _ Hrun
      |s1 i _ Hstop|s1 i _ Hrun|s1 i j q _ _|s1 i _ _|s1 i j _]; simpl;
      try (split; [done | by right]);
      try (split; [done | exact Hinit]).
    - split; [by apply (feed_keeps_stop (Frame now objs)) | by left].
    - split; [done|]. destruct Hinit as [Hl|Hs]; [congruence | by right]. }
  destruct (IH Hinv) as [Hkeep' Hinv']. split; [auto | done].
Qed.

Lemma stop_event_is_permanent_witness :
  let s' := with_app set_stop initial_system in
  (stop_event (app initial_system) = true → stop_event (app s') = true) ∧
  (main s' = Listening ∨ stop_event (app s') = true).
Proof.
  intros s'.
  apply (stop_event_is_permanent store out_root api_url initial_system s').
  - by left.
  - apply rtc_once. by apply step_signal.
Defined.

(** ** A transfer among others *)

Lemma substring_none (s : string) (n : nat) : String.substring n 0 s = "".
Proof. revert n. induction s as [|c s IH]; intros [|n]; simpl; auto. Qed.

(** Writing at the end of a file appends. *)
Lemma write_at_end (data old : string) :
  write_at (String.length old) data old = old +:+ data.
Proof.
  unfold write_at. rewrite substring_whole, Nat.sub_diag. simpl.
  replace (String.length old - (String.length old + String.length data))%nat
    with 0%nat by lia.
  by rewrite substring_none, app_empty_r.
Qed.

(** What one step of a transfer can change: entries under its own two
    names, and the file behind its descriptor or behind its temporary name,
    or a new file. *)
Lemma dl_step_frame (t : transfer) (pc : dl_pc) (d : Disk) :
  (next_inode d <= next_inode (dl_step t pc d).2)%nat ∧
  (∀ p, p ∉ own_names t → entries (dl_step t pc d).2 !! p = entries d !! p) ∧
  (∀ x, fd_of pc ≠ Some x → entries d !! part_file (t_dest t) ≠ Some x →
        (x < next_inode d)%nat →
        inodes (dl_step t pc d).2 !! x = inodes d !! x) ∧
  (∀ x, fd_of (dl_step t pc d).1 = Some x →
        fd_of pc = Some x ∨ entries d !! part_file (t_dest t) = Some x
        ∨ x = next_inode d).
Proof.
  destruct pc as [|fd pos [|data todo]| |r]; simpl.
  - unfold sys_open_trunc.
    destruct (entries d !! part_file (t_dest t)) as [x0|] eqn:E; simpl;
      (split; [lia|split; [|split]]).
    + done.
    + intros x _ Hx _. apply lookup_insert_ne. congruence.
    + intros x [= <-]. by right; left.
    + intros p Hp. apply lookup_insert_ne. intros <-. apply Hp.
      unfold own_names. set_solver.
    + intros x _ _ Hx. apply lookup_insert_ne. lia.
    + intros x [= <-]. by right; right.
  - split; [lia|split; [done|split; [done|]]]. by destruct (t_broken t).
  - split; [lia|split; [done|split; [|by left]]].
    intros x Hx _ _. apply lookup_alter_ne. congruence.
  - unfold sys_rename.
    destruct (entries d !! part_file (t_dest t)) as [x0|] eqn:E; simpl;
      (split; [lia|split; [|split; [done|done]]]); [|done].
    intros p Hp. unfold own_names in Hp.
    rewrite lookup_insert_ne, lookup_delete_ne; [done|..]; intros <-; set_solver.
  - split; [lia|split; [done|split; [done|by left]]].
Qed.

Lemma dl_step_tidy (t : transfer) (pc : dl_pc) (d : Disk) :
  tidy d →
  (∀ x, fd_of pc = Some x → (x < next_inode d)%nat) →
  tidy (dl_step t pc d).2 ∧
  (∀ x, fd_of (dl_step t pc d).1 = Some x → (x < next_inode (dl_step t pc d).2)%nat).
Proof.
  intros [Hinj Hlt] Hfd.
  destruct pc as [|fd pos [|data todo]| |r]; simpl.
  - unfold sys_open_trunc.
    destruct (entries d !! part_file (t_dest t)) as [x0|] eqn:E; simpl.
    + split; [done|]. intros x [= <-]. by eapply Hlt.
    + split; [split|]; simpl.
      * intros p q x Hp Hq.
        destruct (decide (p = part_file (t_dest t))) as [->|Hp'],
                 (decide (q = part_file (t_dest t))) as [->|Hq']; [done|..].
        -- rewrite lookup_insert_eq in Hp. rewrite lookup_insert_ne in Hq by done.
           injection Hp as <-. apply Hlt in Hq. lia.
        -- rewrite lookup_insert_eq in Hq. rewrite lookup_insert_ne in Hp by done.
           injection Hq as <-. apply Hlt in Hp. lia.
        -- rewrite lookup_insert_ne in Hp, Hq by done. by eapply Hinj.
      * intros p x Hp.
        destruct (decide (p = part_file (t_dest t))) as [->|Hp'].
        -- rewrite lookup_insert_eq in Hp. injection Hp as <-. lia.
        -- rewrite lookup_insert_ne in Hp by done. apply Hlt in Hp. lia.
      * intros x [= <-]. lia.
  - split; [done|]. by destruct (t_broken t).
  - split; [done|]. intros x [= <-]. by apply (Hfd fd).
  - unfold sys_rename.
    destruct (entries d !! part_file (t_dest t)) as [x0|] eqn:E; simpl;
      [|done].
    split; [split|done]; simpl.
    + intros p q x Hp Hq.
      destruct (decide (p = t_dest t)) as [->|Hp'],
               (decide (q = t_dest t)) as [->|Hq']; [done|..].
      * rewrite lookup_insert_eq in Hp. injection Hp as <-.
        rewrite lookup_insert_ne in Hq by done.
        apply lookup_delete_Some in Hq as [Hne Hq].
        destruct Hne. by eapply Hinj.
      * rewrite lookup_insert_eq in Hq. injection Hq as <-.
        rewrite lookup_insert_ne in Hp by done.
        apply lookup_delete_Some in Hp as [Hne Hp].
        destruct Hne. by eapply Hinj.
      * rewrite lookup_insert_ne in Hp, Hq by done.
        apply lookup_delete_Some in Hp as [_ Hp].
        apply lookup_delete_Some in Hq as [_ Hq]. by eapply Hinj.
    + intros p x Hp.
      destruct (decide (p = t_dest t)) as [->|Hp'].
      * rewrite lookup_insert_eq in Hp. injection Hp as <-. by eapply Hlt.
      * rewrite lookup_insert_ne in Hp by done.
        apply lookup_delete_Some in Hp as [_ Hp]. by eapply Hlt.
  - done.
Qed.

Section Isolation.
Variable ts : list transfer.
Variable i : nat.
Variable t : transfer.
Variable d0 : Disk.
Hypothesis Hi : ts !! i = Some t.
Hypothesis Hname : path_name (t_dest t) ≠ "".
Hypothesis Halone : alone_on_its_names ts i.

Lemma others_names (j : nat) (tj : transfer) (Hj : j ≠ i) (Htj : ts !! j = Some tj) :
  (part_file (t_dest t) ∉ own_names tj) ∧ (t_dest t ∉ own_names tj).
Proof.
  pose proof (Halone j t tj Hj Hi Htj) as Hnames.
  split; apply Hnames; unfold own_names; set_solver.
Qed.

(** A step that leaves alone the two names and the files behind them leaves
    the transfer where it was. *)
Lemma my_state_frame (pc : dl_pc) (d d' : Disk) :
  entries d' !! part_file (t_dest t) = entries d !! part_file (t_dest t) →
  entries d' !! t_dest t = entries d !! t_dest t →
  (∀ x, entries d !! part_file (t_dest t) = Some x ∨ entries d !! t_dest t = Some x →
        inodes d' !! x = inodes d !! x) →
  my_state d0 t pc d → my_state d0 t pc d'.
Proof.
  intros Htmp Hdest Hino.
  assert (file_at d' (part_file (t_dest t)) = file_at d (part_file (t_dest t))) as Ht.
  { unfold file_at. rewrite Htmp.
    destruct (entries d !! part_file (t_dest t)) as [x|] eqn:E; [|done].
    simpl. apply Hino. by left. }
  assert (file_at d' (t_dest t) = file_at d (t_dest t)) as Hd.
  { unfold file_at. rewrite Hdest.
    destruct (entries d !! t_dest t) as [x|] eqn:E; [|done].
    simpl. apply Hino. by right. }
  destruct pc as [|fd pos todo| |[[]|e]]; simpl; rewrite ?Ht, ?Hd, ?Htmp; try done.
  intros (Hfd & Hw & Hdst). rewrite Hino by (by left). done.
Qed.

Lemma tmp_neq_dest : part_file (t_dest t) ≠ t_dest t.
Proof. by apply part_file_neq. Qed.

Lemma undisturbed_step (st : list dl_pc * Disk) (k : nat) :
  undisturbed ts i t d0 st → undisturbed ts i t d0 (race_step ts st k).
Proof.
  destruct st as [pcs d].
  intros Hinv. pose proof Hinv as (Hlen & Htidy & Hfd & Hoth & pci & Hpci & Hmine).
  simpl in Hlen, Htidy, Hfd, Hoth, Hpci, Hmine.
  unfold race_step. simpl.
  destruct (ts !! k) as [tk|] eqn:Hk; [|done].
  destruct (pcs !! k) as [pc|] eqn:Hpc; [|done]. clear Hinv.
  assert (k < length pcs)%nat as Hklt by (by eapply lookup_lt_Some).
  assert (∀ x, fd_of pc = Some x → (x < next_inode d)%nat) as Hfdk.
  { intros x Hx. apply (Hfd k x). by rewrite Hpc. }
  pose proof (dl_step_frame tk pc d) as (Hnext & Hent & Hino & Hnew).
  pose proof (dl_step_tidy tk pc d Htidy Hfdk) as [Htidy' Hfd'].
  destruct (dl_step tk pc d) as [pc' d'] eqn:Hstep. simpl in *.
  pose proof Htidy as [Hinj Hlt]. unfold undisturbed. simpl.
  split; [by rewrite length_insert|]. split; [done|]. split.
  { intros j x. destruct (decide (j = k)) as [->|Hjk].
    - rewrite list_lookup_insert_eq by done. simpl. apply Hfd'.
    - rewrite list_lookup_insert_ne by done. intros Hx%Hfd. lia. }
  destruct (decide (k = i)) as [->|Hki].
  - (* the transfer's own step *)
    rewrite Hi in Hk. injection Hk as <-.
    rewrite Hpci in Hpc. injection Hpc as <-.
    pose proof tmp_neq_dest as Hneq.
    assert (∀ j x, j ≠ i → (pcs !! j ≫= fd_of) = Some x →
                   entries d !! part_file (t_dest t) ≠ Some x ∧
                   entries d !! t_dest t ≠ Some x ∧ (x < next_inode d)%nat) as Hoth'.
    { intros j x Hj Hx. destruct (Hoth j x Hj Hx). split; [done|split; [done|]].
      by apply (Hfd j). }
    destruct pci as [|fd pos [|data todo]| |r]; simpl in Hstep.
    + (* open *)
      unfold sys_open_trunc in Hstep.
      destruct (entries d !! part_file (t_dest t)) as [x0|] eqn:E;
        injection Hstep as <- <-; simpl.
      * split.
        { intros j x Hj. rewrite list_lookup_insert_ne by done.
          intros Hx. destruct (Hoth' j x Hj Hx) as (? & ? & _). by rewrite E. }
        eexists. split; [by apply list_lookup_insert_eq|]. simpl.
        split; [done|]. split.
        { exists "". rewrite lookup_insert_eq. done. }
        unfold my_state in Hmine. rewrite <- Hmine. unfold file_at. simpl.
        destruct (entries d !! t_dest t) as [y|] eqn:Ey; [|done]. simpl.
        apply lookup_insert_ne. intros <-. apply Hneq. by eapply Hinj.
      * split.
        { intros j x Hj. rewrite list_lookup_insert_ne by done.
          intros Hx. destruct (Hoth' j x Hj Hx) as (? & ? & ?).
          rewrite lookup_insert_eq, lookup_insert_ne by done.
          split; [|done]. intros [= <-]. lia. }
        eexists. split; [by apply list_lookup_insert_eq|]. simpl.
        split; [by rewrite lookup_insert_eq|]. split.
        { exists "". rewrite lookup_insert_eq. done. }
        unfold my_state in Hmine. rewrite <- Hmine. unfold file_at. simpl.
        rewrite lookup_insert_ne by done.
        destruct (entries d !! t_dest t) as [y|] eqn:Ey; [|done]. simpl.
        apply lookup_insert_ne. apply Hlt in Ey. lia.
    + (* the with block is left *)
      injection Hstep as <- <-.
      destruct Hmine as (Htmp & (written & Hw & Hpos & Hall) & Hdest).
      simpl in Hall. rewrite app_empty_r in Hall. subst written.
      split.
      { intros j x Hj. rewrite list_lookup_insert_ne by done.
        intros Hx. by destruct (Hoth' j x Hj Hx) as (? & ? & _). }
      eexists. split; [by apply list_lookup_insert_eq|].
      assert (file_at d (part_file (t_dest t)) = Some (t_received t)) as Hfile.
      { unfold file_at. by rewrite Htmp. }
      by destruct (t_broken t) as [e|] eqn:Hb; simpl.
    + (* a write *)
      injection Hstep as <- <-.
      destruct Hmine as (Htmp & (written & Hw & Hpos & Hall) & Hdest).
      split.
      { intros j x Hj. rewrite list_lookup_insert_ne by done.
        intros Hx. by destruct (Hoth' j x Hj Hx) as (? & ? & _). }
      eexists. split; [by apply list_lookup_insert_eq|]. simpl.
      split; [done|]. split.
      { exists (written +:+ data). rewrite lookup_alter_eq, Hw. simpl.
        subst pos. rewrite write_at_end, length_app_str.
        split; [done|]. split; [done|]. by rewrite app_assoc_str. }
      rewrite <- Hdest. unfold file_at. simpl.
      destruct (entries d !! t_dest t) as [y|] eqn:Ey; [|done]. simpl.
      apply lookup_alter_ne. intros <-. apply Hneq. by eapply Hinj.
    + (* the rename *)
      destruct Hmine as (Hb & Htmp & Hdest).
      unfold sys_rename in Hstep. unfold file_at in Htmp.
      destruct (entries d !! part_file (t_dest t)) as [x0|] eqn:E; [|done].
      simpl in Htmp. injection Hstep as <- <-. simpl.
      split.
      { intros j x Hj. rewrite list_lookup_insert_ne by done.
        intros Hx. destruct (Hoth' j x Hj Hx) as (? & ? & _).
        rewrite lookup_insert_ne, lookup_delete_eq, lookup_insert_eq by done.
        split; [done | congruence]. }
      eexists. split; [by apply list_lookup_insert_eq|]. simpl.
      split; [done|]. split.
      * unfold file_at. simpl. by rewrite lookup_insert_eq.
      * by rewrite lookup_insert_ne, lookup_delete_eq.
    + (* back from the call already *)
      injection Hstep as <- <-.
      split.
      { intros j x Hj. rewrite list_lookup_insert_ne by done.
        intros Hx. by destruct (Hoth' j x Hj Hx) as (? & ? & _). }
      eexists. split; [by apply list_lookup_insert_eq|]. done.
  - (* a step of another transfer *)
    destruct (others_names k tk Hki Hk) as [Htmpk Hdestk].
    assert (part_file (t_dest tk) ≠ part_file (t_dest t) ∧
            part_file (t_dest tk) ≠ t_dest t) as [Hn1 Hn2].
    { unfold own_names in *. set_solver. }
    rewrite (Hent _ Htmpk), (Hent _ Hdestk).
    split.
    + intros j x Hj. destruct (decide (j = k)) as [->|Hjk].
      * rewrite list_lookup_insert_eq by done. simpl. intros Hx.
        destruct (Hnew x Hx) as [Hold|[Hopen| ->]].
        -- apply (Hoth k x Hki). by rewrite Hpc.
        -- split; intros Hmy; [apply Hn1 | apply Hn2]; by eapply Hinj.
        -- split; intros Hmy%Hlt; lia.
      * rewrite list_lookup_insert_ne by done. by apply Hoth.
    + exists pci. split; [by rewrite list_lookup_insert_ne|].
      apply (my_state_frame pci d d'); [by apply Hent | by apply Hent | | done].
      intros x Hx. apply Hino.
      * intros Hfdx. destruct (Hoth k x Hki) as [? ?]; [by rewrite Hpc|].
        by destruct Hx.
      * intros Hk'. destruct Hx as [Hx|Hx]; [apply Hn1 | apply Hn2]; by eapply Hinj.
      * destruct Hx as [Hx|Hx]; by eapply Hlt.
Qed.

Lemma undisturbed_run (schedule : list nat) :
  ∀ st, undisturbed ts i t d0 st → undisturbed ts i t d0 (run_schedule ts schedule st).
Proof.
  induction schedule as [|k schedule IH]; intros st Hst; [done|].
  simpl. by apply IH, undisturbed_step.
Qed.

End Isolation.

